(** * version-sentinel: the VersionChecker of src/index.ts

    A shallow embedding of the [VersionChecker] class: the checker instance
    (options, stored version tag, timer handle, retry counter, listener
    registry), the host it runs on (fetch, clock, timers, console) and the
    methods [start], [stop], [check], [on], [off], [compareVersion] and
    [emit], followed by the properties of the check / compare / retry state
    machine and of the event dispatch. *)

From Stdlib Require Import ZArith Lia.
From stdpp Require Import base decidable countable strings list gmap pretty.

Open Scope Z_scope.

(** ** Data model (src/types.ts) *)

(** [VersionCheckerEventType]: the six event kinds. *)
Inductive VersionCheckerEventType :=
| EvUpdate | EvCheck | EvError | EvRetry | EvStart | EvStop.

#[global] Instance VersionCheckerEventType_eq_dec : EqDecision VersionCheckerEventType.
Proof. solve_decision. Defined.

Definition event_code (e : VersionCheckerEventType) : nat :=
  match e with
  | EvUpdate => 0 | EvCheck => 1 | EvError => 2
  | EvRetry => 3 | EvStart => 4 | EvStop => 5
  end%nat.

Definition event_of_code (n : nat) : VersionCheckerEventType :=
  match n with
  | 0 => EvUpdate | 1 => EvCheck | 2 => EvError
  | 3 => EvRetry | 4 => EvStart | _ => EvStop
  end%nat.

#[global] Instance VersionCheckerEventType_countable : Countable VersionCheckerEventType.
Proof. apply (inj_countable' event_code event_of_code). by intros []. Defined.

(** A value that can be thrown, or that a promise can be rejected with:
    an [Error] object with its message, or any other value. *)
Inductive JsValue :=
| JsError (message : string)
| JsOther (tag : nat).

#[global] Instance JsValue_eq_dec : EqDecision JsValue.
Proof. solve_decision. Defined.

(** [Required<VersionCheckerOptions>].  [compareStrategy] is the string found
    at run time: [check] has a [default] branch for values outside the
    declared union.  The numeric options are JavaScript numbers and are not
    validated, hence [Z]. *)
Record Options := {
  checkInterval : Z;
  versionUrl : string;
  compareStrategy : string;
  autoStart : bool;
  retryTimes : Z;
  retryInterval : Z
}.

(** [VersionCheckerOptions]: every field optional. *)
Record VersionCheckerOptions := {
  checkInterval_opt : option Z;
  versionUrl_opt : option string;
  compareStrategy_opt : option string;
  autoStart_opt : option bool;
  retryTimes_opt : option Z;
  retryInterval_opt : option Z
}.

Record VersionInfo := {
  currentVersion : option string;
  newVersion : option string;
  updateAvailable : bool;
  timestamp : Z
}.

(** The [payload?: any] of an event, as [check], [start] and [stop] fill it. *)
Inductive Payload :=
| NoPayload
| InfoPayload (info : VersionInfo)
| ErrorPayload (error : JsValue)
| RetryPayload (error : JsValue) (retryCount : Z).

Record VersionCheckerEvent := {
  type : VersionCheckerEventType;
  payload : Payload;
  ev_timestamp : Z
}.

(** A listener: a function reference ([cb_id] is its identity, which is what
    [Set] compares) and what a call of it does with the event: return
    ([None]) or throw a value.  Listeners do not call back into the checker. *)
Record Callback := {
  cb_id : nat;
  cb_run : VersionCheckerEvent -> option JsValue
}.

(** ** The host: fetch, clock, timers, console *)

(** A [Response]: its [headers] are the header values by lower-case name.
    [Headers.get] answers [null] for a header that is absent, and the value,
    which may be the empty string, for one that is present. *)
Record Response := {
  ok : bool;
  status : nat;
  statusText : string;
  headers : gmap string string
}.

Definition headers_get (r : Response) (name : string) : option string :=
  headers r !! name.

(** How the promise returned by one [fetch] call settles. *)
Inductive FetchOutcome :=
| Fulfilled (r : Response)
| Rejected (reason : JsValue).

(** The environment answers the n-th [fetch] call and the n-th [Date.now()]. *)
Record Env := {
  fetch : nat -> FetchOutcome;
  Date_now : nat -> Z
}.

(** What the checker does to the outside, in order. *)
Inductive Effect :=
| Emitted (e : VersionCheckerEvent)
| Invoked (cb : nat) (e : VersionCheckerEvent)
| ConsoleError (msg : string) (v : JsValue)
| Fetched (url : string)
| TimeoutAwaited (ms : Z)
| IntervalSet (handle : nat) (ms : Z)
| IntervalCleared (handle : nat).

Record Host := {
  clockReads : nat;
  fetchCalls : nat;
  intervals : list nat;
  nextTimer : nat;
  trace : list Effect
}.

(** The instance fields of [VersionChecker].  [timer] holds the handle
    returned by [setInterval], an object, so that [if (this.timer)] tests it
    against [null]. *)
Record VersionChecker := {
  options : Options;
  versionTag : option string;
  timer : option nat;
  retryCount : Z;
  eventListeners : gmap VersionCheckerEventType (list Callback)
}.

Record World := {
  this : VersionChecker;
  host : Host
}.

(** ** Computations: state, exceptions, fuel *)

Inductive Outcome (A : Type) :=
| Returned (a : A)
| Thrown (v : JsValue)
| OutOfFuel.
Arguments Returned {A} a.
Arguments Thrown {A} v.
Arguments OutOfFuel {A}.

Definition M (A : Type) : Type := World -> Outcome A * World.

Definition ret {A} (a : A) : M A := fun w => (Returned a, w).

Definition bind {A B} (m : M A) (k : A -> M B) : M B :=
  fun w =>
    match m w with
    | (Returned a, w') => k a w'
    | (Thrown v, w') => (Thrown v, w')
    | (OutOfFuel, w') => (OutOfFuel, w')
    end.

Definition throw {A} (v : JsValue) : M A := fun w => (Thrown v, w).

Definition out_of_fuel {A} : M A := fun w => (OutOfFuel, w).

(** [try { m } catch (error) { handler error }] *)
Definition try_catch {A} (m : M A) (handler : JsValue -> M A) : M A :=
  fun w =>
    match m w with
    | (Thrown v, w') => handler v w'
    | r => r
    end.

Notation "'let*' x ':=' m 'in' k" := (bind m (fun x => k))
  (at level 10, x name, m at level 100, k at level 200).
Notation "m >> k" := (bind m (fun _ => k))
  (at level 60, right associativity).

Definition gets {A} (f : VersionChecker -> A) : M A :=
  fun w => (Returned (f (this w)), w).

Definition modify_this (f : VersionChecker -> VersionChecker) : M unit :=
  fun w => (Returned tt, {| this := f (this w); host := host w |}).

Definition modify_host (f : Host -> Host) : M unit :=
  fun w => (Returned tt, {| this := this w; host := f (host w) |}).

Definition set_versionTag (v : option string) (c : VersionChecker) : VersionChecker :=
  {| options := options c; versionTag := v; timer := timer c;
     retryCount := retryCount c; eventListeners := eventListeners c |}.

Definition set_timer (t : option nat) (c : VersionChecker) : VersionChecker :=
  {| options := options c; versionTag := versionTag c; timer := t;
     retryCount := retryCount c; eventListeners := eventListeners c |}.

Definition set_retryCount (n : Z) (c : VersionChecker) : VersionChecker :=
  {| options := options c; versionTag := versionTag c; timer := timer c;
     retryCount := n; eventListeners := eventListeners c |}.

Definition set_eventListeners (l : gmap VersionCheckerEventType (list Callback))
    (c : VersionChecker) : VersionChecker :=
  {| options := options c; versionTag := versionTag c; timer := timer c;
     retryCount := retryCount c; eventListeners := l |}.

Definition add_trace (t : list Effect) (h : Host) : Host :=
  {| clockReads := clockReads h; fetchCalls := fetchCalls h;
     intervals := intervals h;
     nextTimer := nextTimer h; trace := trace h ++ t |}.

Definition log (e : Effect) : M unit := modify_host (add_trace [e]).

Section Checker.

Variable env : Env.

(** [Date.now()] *)
Definition now : M Z :=
  fun w =>
    (Returned (Date_now env (clockReads (host w))),
     {| this := this w;
        host := {| clockReads := S (clockReads (host w));
                   fetchCalls := fetchCalls (host w);
                   intervals := intervals (host w);
                   nextTimer := nextTimer (host w);
                   trace := trace (host w) |} |}).

(** [console.error('Event listener error:', error)] *)
Definition console_error (msg : string) (v : JsValue) : M unit :=
  log (ConsoleError msg v).

(** A call [callback(eventData)]: returns, or throws what the listener throws. *)
Definition call (callback : Callback) (eventData : VersionCheckerEvent) : M unit :=
  log (Invoked (cb_id callback) eventData) >>
  match cb_run callback eventData with
  | Some v => throw v
  | None => ret tt
  end.

(** [Set.prototype.forEach], in insertion order. *)
Fixpoint forEach {A} (s : list A) (f : A -> M unit) : M unit :=
  match s with
  | [] => ret tt
  | x :: s' => f x >> forEach s' f
  end.

(** [emit(event, payload)], index.ts lines 329-343. *)
Definition emit (event : VersionCheckerEventType) (payload : Payload) : M unit :=
  let* ts := now in
  let eventData := {| type := event; payload := payload; ev_timestamp := ts |} in
  log (Emitted eventData) >>
  let* listeners := gets (fun c => eventListeners c !! event) in
  match listeners with
  | None => ret tt
  | Some callbacks =>
      forEach callbacks (fun callback =>
        try_catch (call callback eventData)
                  (fun error => console_error "Event listener error:" error))
  end.

(** [compareVersion(newVersionTag)], index.ts lines 304-320. *)
Definition compareVersion (newVersionTag : option string) : M VersionInfo :=
  let* current := gets versionTag in
  let* ts := now in
  let versionInfo :=
    {| currentVersion := current; newVersion := newVersionTag;
       updateAvailable := false; timestamp := ts |} in
  match current with
  | None =>
      modify_this (set_versionTag newVersionTag) >> ret versionInfo
  | Some cur =>
      match newVersionTag with
      | Some new =>
          if negb (new =? cur)%string then
            modify_this (set_versionTag newVersionTag) >>
            ret {| currentVersion := current; newVersion := newVersionTag;
                   updateAvailable := true; timestamp := ts |}
          else ret versionInfo
      | None => ret versionInfo
      end
  end.

(** The JavaScript [a || b] on [string | null]: [a] when it is truthy (a
    non-empty string), otherwise [b]. *)
Definition js_or (a b : option string) : option string :=
  match a with
  | Some s => if (s =? "")%string then b else a
  | None => b
  end.

(** The [switch (this.options.compareStrategy)] of [check], lines 196-209. *)
Definition selectVersionTag (strategy : string) (response : Response) : option string :=
  if (strategy =? "etag")%string then headers_get response "etag"
  else if (strategy =? "last-modified")%string then headers_get response "last-modified"
  else if (strategy =? "custom")%string then
    js_or (headers_get response "x-version") (headers_get response "etag")
  else js_or (headers_get response "etag") (headers_get response "last-modified").

(** The call [fetch(url, {cache: 'no-cache', headers: {'Cache-Control':
    'no-cache'}})]: returns at once the promise, named by the index of the
    call. *)
Definition fetch_call (url : string) : M nat :=
  fun w =>
    (Returned (fetchCalls (host w)),
     {| this := this w;
        host := {| clockReads := clockReads (host w);
                   fetchCalls := S (fetchCalls (host w));
                   intervals := intervals (host w);
                   nextTimer := nextTimer (host w);
                   trace := trace (host w) ++ [Fetched url] |} |}).

(** [await] of the promise of the [p]-th fetch call. *)
Definition await_fetch (p : nat) : M Response :=
  match fetch env p with
  | Fulfilled r => ret r
  | Rejected reason => throw reason
  end.

(** [await new Promise(resolve => setTimeout(resolve, ms))] *)
Definition await_timeout (ms : Z) : M unit := log (TimeoutAwaited ms).

(** [new Error(`HTTP error: ${response.status} ${response.statusText}`)] *)
Definition http_error (response : Response) : JsValue :=
  JsError ("HTTP error: " +:+ pretty (status response) +:+ " " +:+ statusText response).

(** [check()], index.ts lines 179-233, followed until its promise settles:
    nothing else runs at its two [await]s.  The recursive call of the
    [catch] block consumes one unit of fuel; [check] below supplies enough. *)
Fixpoint check_fuel (fuel : nat) : M VersionInfo :=
  match fuel with
  | O => out_of_fuel
  | S fuel' =>
      try_catch
        (emit EvCheck NoPayload >>
         let* url := gets (fun c => versionUrl (options c)) in
         let* p := fetch_call url in
         let* response := await_fetch p in
         if negb (ok response) then throw (http_error response)
         else
           let* strategy := gets (fun c => compareStrategy (options c)) in
           let newVersionTag := selectVersionTag strategy response in
           let* versionInfo := compareVersion newVersionTag in
           (if updateAvailable versionInfo
            then emit EvUpdate (InfoPayload versionInfo) else ret tt) >>
           ret versionInfo)
        (fun error =>
           emit EvError (ErrorPayload error) >>
           let* count := gets retryCount in
           let* times := gets (fun c => retryTimes (options c)) in
           if count <? times then
             modify_this (set_retryCount (count + 1)) >>
             let* count' := gets retryCount in
             emit EvRetry (RetryPayload error count') >>
             let* interval := gets (fun c => retryInterval (options c)) in
             await_timeout interval >>
             check_fuel fuel'
           else
             modify_this (set_retryCount 0) >>
             throw error)
  end.

(** The retry counter grows by one per recursive call and the recursion
    stops when it reaches [retryTimes]. *)
Definition check_budget (c : VersionChecker) : nat :=
  S (Z.to_nat (retryTimes (options c) - retryCount c)).

Definition check : M VersionInfo :=
  fun w => check_fuel (check_budget (this w)) w.

(** A call [this.check()] whose promise is not awaited ([start], the interval
    callback): what runs before the call returns, up to the first [await]. *)
Definition check_begin : M nat :=
  emit EvCheck NoPayload >>
  let* url := gets (fun c => versionUrl (options c)) in
  fetch_call url.

(** The rest of that call, once the promise [p] of its fetch has settled. *)
Definition check_resume (fuel : nat) (p : nat) : M VersionInfo :=
  try_catch
    (let* response := await_fetch p in
     if negb (ok response) then throw (http_error response)
     else
       let* strategy := gets (fun c => compareStrategy (options c)) in
       let newVersionTag := selectVersionTag strategy response in
       let* versionInfo := compareVersion newVersionTag in
       (if updateAvailable versionInfo
        then emit EvUpdate (InfoPayload versionInfo) else ret tt) >>
       ret versionInfo)
    (fun error =>
       emit EvError (ErrorPayload error) >>
       let* count := gets retryCount in
       let* times := gets (fun c => retryTimes (options c)) in
       if count <? times then
         modify_this (set_retryCount (count + 1)) >>
         let* count' := gets retryCount in
         emit EvRetry (RetryPayload error count') >>
         let* interval := gets (fun c => retryInterval (options c)) in
         await_timeout interval >>
         check_fuel fuel
       else
         modify_this (set_retryCount 0) >>
         throw error).

(** [setInterval(callback, ms)]: a fresh handle, now active. *)
Definition setInterval (ms : Z) : M nat :=
  fun w =>
    (Returned (nextTimer (host w)),
     {| this := this w;
        host := {| clockReads := clockReads (host w);
                   fetchCalls := fetchCalls (host w);
                   intervals := intervals (host w) ++ [nextTimer (host w)];
                   nextTimer := S (nextTimer (host w));
                   trace := trace (host w) ++ [IntervalSet (nextTimer (host w)) ms] |} |}).

(** [clearInterval(handle)] *)
Definition clearInterval (handle : nat) : M unit :=
  fun w =>
    (Returned tt,
     {| this := this w;
        host := {| clockReads := clockReads (host w);
                   fetchCalls := fetchCalls (host w);
                   intervals := filter (fun h => h <> handle) (intervals (host w));
                   nextTimer := nextTimer (host w);
                   trace := trace (host w) ++ [IntervalCleared handle] |} |}).

(** [start()], index.ts lines 138-146. *)
Definition start : M unit :=
  let* t := gets timer in
  match t with
  | Some _ => ret tt
  | None =>
      emit EvStart NoPayload >>
      check_begin >>
      let* interval := gets (fun c => checkInterval (options c)) in
      let* handle := setInterval interval in
      modify_this (set_timer (Some handle))
  end.

(** [stop()], index.ts lines 166-172. *)
Definition stop : M unit :=
  let* t := gets timer in
  match t with
  | Some handle =>
      clearInterval handle >>
      modify_this (set_timer None) >>
      emit EvStop NoPayload
  | None => ret tt
  end.

(** The interval callback [() => this.check()] of an active timer. *)
Definition interval_fires (handle : nat) : M unit :=
  let* active := (fun w => (Returned (bool_decide (handle ∈ intervals (host w))), w)) in
  if (active : bool) then check_begin >> ret tt else ret tt.

(** [Set.prototype.add] and [Set.prototype.delete] on an insertion-ordered
    set of function references. *)
Definition set_add (callback : Callback) (s : list Callback) : list Callback :=
  if existsb (fun c => Nat.eqb (cb_id c) (cb_id callback)) s then s else s ++ [callback].

Definition set_delete (callback : Callback) (s : list Callback) : list Callback :=
  List.filter (fun c => negb (Nat.eqb (cb_id c) (cb_id callback))) s.

(** [on(event, callback)], index.ts lines 262-267. *)
Definition on (event : VersionCheckerEventType) (callback : Callback) : M unit :=
  let* known := gets (fun c => eventListeners c !! event) in
  (match known with
   | None => modify_this (fun c => set_eventListeners (<[event := []]> (eventListeners c)) c)
   | Some _ => ret tt
   end) >>
  modify_this (fun c =>
    match eventListeners c !! event with
    | Some s => set_eventListeners (<[event := set_add callback s]> (eventListeners c)) c
    | None => c
    end).

(** [off(event, callback)], index.ts lines 293-295. *)
Definition off (event : VersionCheckerEventType) (callback : Callback) : M unit :=
  modify_this (fun c =>
    match eventListeners c !! event with
    | Some s => set_eventListeners (<[event := set_delete callback s]> (eventListeners c)) c
    | None => c
    end).

(** [getTimerState()], [triggerEvent()], [getOptions()]. *)
Definition getTimerState : M bool :=
  gets (fun c => match timer c with Some _ => true | None => false end).

Definition triggerEvent (event : VersionCheckerEventType) (payload : Payload) : M unit :=
  emit event payload.

Definition getOptions : M Options := gets options.

End Checker.

Definition DEFAULT_OPTIONS : Options :=
  {| checkInterval := 60000; versionUrl := "/"; compareStrategy := "etag";
     autoStart := true; retryTimes := 3; retryInterval := 3000 |}.

(** [{ ...this.DEFAULT_OPTIONS, ...options }] *)
Definition merge_options (d : Options) (o : option VersionCheckerOptions) : Options :=
  match o with
  | None => d
  | Some o =>
      {| checkInterval := default (checkInterval d) (checkInterval_opt o);
         versionUrl := default (versionUrl d) (versionUrl_opt o);
         compareStrategy := default (compareStrategy d) (compareStrategy_opt o);
         autoStart := default (autoStart d) (autoStart_opt o);
         retryTimes := default (retryTimes d) (retryTimes_opt o);
         retryInterval := default (retryInterval d) (retryInterval_opt o) |}
  end.

(** The field initialisers of the class. *)
Definition fresh_checker (o : Options) : VersionChecker :=
  {| options := o; versionTag := None; timer := None; retryCount := 0;
     eventListeners := ∅ |}.

(** [new VersionChecker(options)] on a host, index.ts lines 109-115. *)
Definition new_VersionChecker (env : Env) (o : option VersionCheckerOptions)
    (h : Host) : Outcome unit * World :=
  let opts := merge_options DEFAULT_OPTIONS o in
  let w := {| this := fresh_checker opts; host := h |} in
  if autoStart opts then start env w else ret tt w.

Definition createVersionChecker := new_VersionChecker.

(** ** Observations on a run *)

(** The events emitted along a trace, as (kind, payload), in order. *)
Definition emitted_of (e : Effect) : option (VersionCheckerEventType * Payload) :=
  match e with
  | Emitted ev => Some (type ev, payload ev)
  | _ => None
  end.

Definition events (t : list Effect) : list (VersionCheckerEventType * Payload) :=
  omap emitted_of t.

(** The callbacks registered for an event kind, in iteration order. *)
Definition listeners_of (c : VersionChecker) (event : VersionCheckerEventType) : list Callback :=
  default [] (eventListeners c !! event).

(** How one fetch attempt of [check] fails, if it does: the rejection reason,
    or the error made from a response that is not [ok]. *)
Definition failure_of (o : FetchOutcome) : option JsValue :=
  match o with
  | Fulfilled r => if ok r then None else Some (http_error r)
  | Rejected reason => Some reason
  end.

(** What one emission leaves on the trace after [Emitted]: each callback
    invoked once, and the error of each one that throws logged. *)
Definition dispatch (callbacks : list Callback) (e : VersionCheckerEvent) : list Effect :=
  flat_map (fun cb =>
    Invoked (cb_id cb) e ::
    match cb_run cb e with
    | Some v => [ConsoleError "Event listener error:" v]
    | None => []
    end) callbacks.

Definition event_data (env : Env) (event : VersionCheckerEventType) (p : Payload)
    (w : World) : VersionCheckerEvent :=
  {| type := event; payload := p;
     ev_timestamp := Date_now env (clockReads (host w)) |}.

(** The world after [emit(event, p)]. *)
Definition emit_world (env : Env) (event : VersionCheckerEventType) (p : Payload)
    (w : World) : World :=
  {| this := this w;
     host := {| clockReads := S (clockReads (host w));
                fetchCalls := fetchCalls (host w);
                intervals := intervals (host w);
                nextTimer := nextTimer (host w);
                trace := trace (host w) ++
                         Emitted (event_data env event p w) ::
                         dispatch (listeners_of (this w) event) (event_data env event p w) |} |}.

(** The world after the synchronous start of an attempt. *)
Definition begun_world (env : Env) (w : World) : World :=
  (fetch_call (versionUrl (options (this w))) (emit_world env EvCheck NoPayload w)).2.

(** The outcome of [compareVersion]: whether the new tag counts as an
    update of the stored one, and the tag stored afterwards. *)
Definition is_update (stored new : option string) : bool :=
  match stored, new with
  | Some cur, Some n => negb (n =? cur)%string
  | _, _ => false
  end.

Definition next_tag (stored new : option string) : option string :=
  match stored with
  | None => new
  | Some _ => if is_update stored new then new else stored
  end.

Definition compare_info (env : Env) (new : option string) (w : World) : VersionInfo :=
  {| currentVersion := versionTag (this w); newVersion := new;
     updateAvailable := is_update (versionTag (this w)) new;
     timestamp := Date_now env (clockReads (host w)) |}.

Definition compare_world (new : option string) (w : World) : World :=
  {| this := set_versionTag (next_tag (versionTag (this w)) new) (this w);
     host := {| clockReads := S (clockReads (host w));
                fetchCalls := fetchCalls (host w);
                intervals := intervals (host w);
                nextTimer := nextTimer (host w);
                trace := trace (host w) |} |}.

(** After the [await] of the fetch, in world [w]: the result and the world
    when the fetch is answered by the successful [response]. *)
Definition settled_info (env : Env) (response : Response) (w : World) : VersionInfo :=
  compare_info env (selectVersionTag (compareStrategy (options (this w))) response) w.

Definition settled_world (env : Env) (response : Response) (w : World) : World :=
  let w1 := compare_world (selectVersionTag (compareStrategy (options (this w))) response) w in
  if updateAvailable (settled_info env response w)
  then emit_world env EvUpdate (InfoPayload (settled_info env response w)) w1
  else w1.

(** After the [await] of the fetch, in world [w]: the world when the attempt
    failed with [err] and is retried, at the point of the recursive call. *)
Definition retrying_world (env : Env) (err : JsValue) (w : World) : World :=
  let w1 := emit_world env EvError (ErrorPayload err) w in
  let w2 := {| this := set_retryCount (retryCount (this w1) + 1) (this w1);
               host := host w1 |} in
  let w3 := emit_world env EvRetry (RetryPayload err (retryCount (this w2))) w2 in
  {| this := this w3;
     host := add_trace [TimeoutAwaited (retryInterval (options (this w3)))] (host w3) |}.

(** The same when the attempt is not retried and [check] rejects. *)
Definition rejected_world (env : Env) (err : JsValue) (w : World) : World :=
  let w1 := emit_world env EvError (ErrorPayload err) w in
  {| this := set_retryCount 0 (this w1); host := host w1 |}.

(** The same four for a whole attempt that starts in world [w]. *)
Definition success_info (env : Env) (response : Response) (w : World) : VersionInfo :=
  settled_info env response (begun_world env w).

Definition success_world (env : Env) (response : Response) (w : World) : World :=
  settled_world env response (begun_world env w).

Definition retry_world (env : Env) (err : JsValue) (w : World) : World :=
  retrying_world env err (begun_world env w).

Definition exhausted_world (env : Env) (err : JsValue) (w : World) : World :=
  rejected_world env err (begun_world env w).

(** The world after the attempts that failed with [errs], each retried. *)
Definition retries_world (env : Env) (errs : list JsValue) (w : World) : World :=
  fold_left (fun w err => retry_world env err w) errs w.

(** The events of those attempts, the retry counter being [count] before. *)
Fixpoint retry_events (count : Z) (errs : list JsValue)
    : list (VersionCheckerEventType * Payload) :=
  match errs with
  | [] => []
  | err :: errs' =>
      (EvCheck, NoPayload) :: (EvError, ErrorPayload err) ::
      (EvRetry, RetryPayload err (count + 1)) :: retry_events (count + 1) errs'
  end.

(** The events of a kind among a list of events. *)
Definition of_kind (k : VersionCheckerEventType)
    (l : list (VersionCheckerEventType * Payload)) : list Payload :=
  omap (fun ep => if decide (ep.1 = k) then Some ep.2 else None) l.

(** The events emitted between two worlds of a run. *)
Definition new_events (w w' : World) : list (VersionCheckerEventType * Payload) :=
  drop (length (events (trace (host w)))) (events (trace (host w'))).

(** [check] never touches the options, the timer, the listeners or the
    interval timers of the host, and keeps the retry counter non-negative. *)
Definition frame (w w' : World) : Prop :=
  options (this w') = options (this w) /\
  timer (this w') = timer (this w) /\
  eventListeners (this w') = eventListeners (this w) /\
  intervals (host w') = intervals (host w) /\
  nextTimer (host w') = nextTimer (host w) /\
  (0 <= retryCount (this w) -> 0 <= retryCount (this w')).

(** ** Operations on a checker, and the states they reach *)

Inductive Op :=
| OpStart
| OpStop
| OpCheck
| OpOn (event : VersionCheckerEventType) (callback : Callback)
| OpOff (event : VersionCheckerEventType) (callback : Callback)
| OpTrigger (event : VersionCheckerEventType) (p : Payload)
| OpInterval (handle : nat)
| OpSettle (promise : nat).

Definition run_op (env : Env) (o : Op) : M unit :=
  match o with
  | OpStart => start env
  | OpStop => stop env
  | OpCheck => check env >> ret tt
  | OpOn event callback => on event callback
  | OpOff event callback => off event callback
  | OpTrigger event p => triggerEvent env event p
  | OpInterval handle => interval_fires env handle
  | OpSettle promise =>
      (fun w => check_resume env (check_budget (this w)) promise w) >> ret tt
  end.

Definition run_ops (env : Env) (ops : list Op) (w : World) : World :=
  fold_left (fun w o => (run_op env o w).2) ops w.

(** A host on which no interval timer is active yet. *)
Definition idle_host (h : Host) : Prop := intervals h = [].

Inductive reachable (env : Env) : World -> Prop :=
| reachable_new o h :
    idle_host h -> reachable env (new_VersionChecker env o h).2
| reachable_op w o :
    reachable env w -> reachable env (run_op env o w).2.

(** What the outcome of [check] depends on: everything but the listeners,
    the trace and the interval timers. *)
Definition core (w : World) : Options * option string * Z * nat * nat :=
  (options (this w), versionTag (this w), retryCount (this w),
   clockReads (host w), fetchCalls (host w)).

(** What the operations keep true of a checker: the retry counter is not
    negative, and the active interval timers of the host are exactly the one
    held in [timer], if any. *)
Definition inv (w : World) : Prop :=
  0 <= retryCount (this w) /\
  intervals (host w) = match timer (this w) with Some h => [h] | None => [] end.

(** [n] calls of [check], each awaited before the next: their outcomes and
    the world after the last. *)
Fixpoint checks (env : Env) (n : nat) (w : World) : list (Outcome VersionInfo) * World :=
  match n with
  | O => ([], w)
  | S n' =>
      let r := check env w in
      let rs := checks env n' r.2 in
      (r.1 :: rs.1, rs.2)
  end.

(** The extraction rule as the specification words it: a header that is
    absent falls back to the next one. *)
Definition first_present (a b : option string) : option string :=
  match a with
  | Some v => Some v
  | None => b
  end.

Definition selectVersionTag_spec (strategy : string) (response : Response) : option string :=
  if decide (strategy = "etag") then headers_get response "etag"
  else if decide (strategy = "last-modified") then headers_get response "last-modified"
  else if decide (strategy = "custom") then
    first_present (headers_get response "x-version") (headers_get response "etag")
  else first_present (headers_get response "etag") (headers_get response "last-modified").

(** ** Sample inputs *)

Definition net_error : JsValue := JsError "Network error".

Definition listener_error : JsValue := JsError "Listener error".

Definition response_with (hs : list (string * string)) : Response :=
  {| ok := true; status := 200; statusText := "OK"; headers := list_to_map hs |}.

Definition not_found : Response :=
  {| ok := false; status := 404; statusText := "Not Found"; headers := ∅ |}.

Definition host0 : Host :=
  {| clockReads := 0; fetchCalls := 0; intervals := []; nextTimer := 1; trace := [] |}.

Definition clock0 (n : nat) : Z := 1000 + Z.of_nat n.

(** [{ autoStart: false, versionUrl: '/version', retryTimes: times }] *)
Definition manual (times : Z) : option VersionCheckerOptions :=
  Some {| checkInterval_opt := None; versionUrl_opt := Some "/version";
          compareStrategy_opt := None; autoStart_opt := Some false;
          retryTimes_opt := Some times; retryInterval_opt := None |}.

(** The fetch fails, then succeeds, then fails for good. *)
Definition env_fail_ok_fail : Env :=
  {| fetch := fun n =>
       match n with
       | 1%nat => Fulfilled (response_with [("etag", "W/123")])
       | _ => Rejected net_error
       end;
     Date_now := clock0 |}.

(** The fetch fails twice, by rejection and by status, then succeeds. *)
Definition env_two_failures : Env :=
  {| fetch := fun n =>
       match n with
       | 0%nat => Rejected net_error
       | 1%nat => Fulfilled not_found
       | _ => Fulfilled (response_with [("etag", "W/123")])
       end;
     Date_now := clock0 |}.

(** The fetch always fails. *)
Definition env_down : Env :=
  {| fetch := fun _ => Rejected net_error; Date_now := clock0 |}.

(** The fetch answers with the tags A, then B, then B. *)
Definition env_a_b : Env :=
  {| fetch := fun n =>
       match n with
       | 0%nat => Fulfilled (response_with [("etag", "A")])
       | _ => Fulfilled (response_with [("etag", "B")])
       end;
     Date_now := clock0 |}.

(** The fetch answers twice without any header, then with a tag. *)
Definition env_null_null_a : Env :=
  {| fetch := fun n =>
       match n with
       | 0%nat | 1%nat => Fulfilled (response_with [])
       | _ => Fulfilled (response_with [("etag", "A")])
       end;
     Date_now := clock0 |}.

(** A response whose [x-version] header is present and empty. *)
Definition empty_x_version : Response :=
  response_with [("x-version", ""); ("etag", "W/123")].

(** A listener that throws, and one that does not. *)
Definition throwing_listener : Callback :=
  {| cb_id := 1; cb_run := fun _ => Some listener_error |}.

Definition quiet_listener : Callback :=
  {| cb_id := 2; cb_run := fun _ => None |}.

(** ** Further observations and sample inputs *)

(** What a run adds to an observation [f] of the trace. *)
Definition since {A} (f : list Effect -> list A) (w w' : World) : list A :=
  drop (length (f (trace (host w)))) (f (trace (host w'))).

(** The callbacks invoked along a trace, by identity, in order. *)
Definition invoked_of (e : Effect) : option nat :=
  match e with
  | Invoked cb _ => Some cb
  | _ => None
  end.

Definition invocations (t : list Effect) : list nat := omap invoked_of t.

(** The values logged with [console.error] along a trace. *)
Definition logged_of (e : Effect) : option JsValue :=
  match e with
  | ConsoleError _ v => Some v
  | _ => None
  end.

Definition console_errors (t : list Effect) : list JsValue := omap logged_of t.

(** The calls to the host along a trace: fetches, awaited timeouts, interval
    timers set and cleared. *)
Definition host_call_of (e : Effect) : option Effect :=
  match e with
  | Fetched _ | TimeoutAwaited _ | IntervalSet _ _ | IntervalCleared _ => Some e
  | _ => None
  end.

Definition host_calls (t : list Effect) : list Effect := omap host_call_of t.

(** The callback is in the set of the event kind. *)
Definition registered (callback : Callback) (c : VersionChecker)
    (event : VersionCheckerEventType) : Prop :=
  cb_id callback ∈ map cb_id (listeners_of c event).

#[global] Instance registered_dec callback c event : Decision (registered callback c event).
Proof. unfold registered. apply _. Defined.

(** No function is twice in the set of an event kind. *)
Definition listeners_distinct (w : World) : Prop :=
  forall event, NoDup (map cb_id (listeners_of (this w) event)).

(** The retry counter stays between 0 and [retryTimes]. *)
Definition counter_bounded (w : World) : Prop :=
  0 <= retryCount (this w) <= Z.max 0 (retryTimes (options (this w))).

(** The world after [start()] on a checker without timer, and after [stop()]
    on a checker that holds the timer [handle]. *)
Definition started_world (env : Env) (w : World) : World :=
  let w1 := begun_world env (emit_world env EvStart NoPayload w) in
  let w2 := (setInterval (checkInterval (options (this w1))) w1).2 in
  {| this := set_timer (Some (nextTimer (host w1))) (this w2); host := host w2 |}.

Definition stopped_world (env : Env) (handle : nat) (w : World) : World :=
  emit_world env EvStop NoPayload
    {| this := set_timer None (this w); host := host (clearInterval handle w).2 |}.

(** One fetch of [url], and one fetch followed by the wait before a retry. *)
Definition retry_calls (url : string) (ms : Z) (retries : nat) : list Effect :=
  concat (replicate retries [Fetched url; TimeoutAwaited ms]) ++ [Fetched url].

(** [{ autoStart: false, checkInterval: 1000 }]: the other fields are left
    to the defaults. *)
Definition only_interval : option VersionCheckerOptions :=
  Some {| checkInterval_opt := Some 1000; versionUrl_opt := None;
          compareStrategy_opt := None; autoStart_opt := Some false;
          retryTimes_opt := None; retryInterval_opt := None |}.

(** A third listener. *)
Definition other_listener : Callback :=
  {| cb_id := 3; cb_run := fun _ => None |}.

(** * Properties *)

(** ** Stepping through a computation *)

Lemma bind_step {A B} (m : M A) (k : A -> M B) w a w' r :
  m w = (Returned a, w') -> k a w' = r -> bind m k w = r.
Proof. intros Hm Hk. unfold bind. by rewrite Hm. Qed.

Lemma try_returned {A} (m : M A) (h : JsValue -> M A) w a w' :
  m w = (Returned a, w') -> try_catch m h w = (Returned a, w').
Proof. intros Hm. unfold try_catch. by rewrite Hm. Qed.

Lemma try_caught {A} (m : M A) (h : JsValue -> M A) w v w' r :
  m w = (Thrown v, w') -> h v w' = r -> try_catch m h w = r.
Proof. intros Hm Hh. unfold try_catch. by rewrite Hm. Qed.

Lemma gets_eq {A} (f : VersionChecker -> A) w : gets f w = (Returned (f (this w)), w).
Proof. reflexivity. Qed.

Lemma fetch_call_eq url w :
  fetch_call url w = (Returned (fetchCalls (host w)), (fetch_call url w).2).
Proof. reflexivity. Qed.

Lemma modify_this_eq f w :
  modify_this f w = (Returned tt, {| this := f (this w); host := host w |}).
Proof. reflexivity. Qed.

Ltac step_with H := eapply bind_step; [apply H|].
Ltac step_gets := eapply bind_step; [apply gets_eq|]; cbv beta.

(** ** Event dispatch *)

Lemma add_trace_nil h : add_trace [] h = h.
Proof. destruct h; unfold add_trace; simpl. by rewrite app_nil_r. Qed.

Lemma add_trace_app t1 t2 h : add_trace t2 (add_trace t1 h) = add_trace (t1 ++ t2) h.
Proof. unfold add_trace; simpl. by rewrite app_assoc. Qed.

Lemma forEach_dispatch callbacks e w :
  forEach callbacks
    (fun callback =>
       try_catch (call callback e)
                 (fun error => console_error "Event listener error:" error)) w
  = (Returned tt, {| this := this w; host := add_trace (dispatch callbacks e) (host w) |}).
Proof.
  revert w. induction callbacks as [|cb l IH]; intros w.
  - simpl. rewrite add_trace_nil. by destruct w.
  - cbn [forEach]. unfold bind at 1.
    assert (Hcb : try_catch (call cb e)
                    (fun error => console_error "Event listener error:" error) w
                  = (Returned tt,
                     {| this := this w;
                        host := add_trace (dispatch [cb] e) (host w) |})).
    { unfold try_catch, call, bind, log, modify_host, console_error, dispatch.
      simpl. destruct (cb_run cb e); simpl.
      - unfold log, modify_host. simpl. by rewrite add_trace_app.
      - done. }
    rewrite Hcb, IH. simpl. rewrite add_trace_app.
    unfold dispatch. simpl. by rewrite app_nil_r.
Qed.

Lemma emit_eq env event p w :
  emit env event p w = (Returned tt, emit_world env event p w).
Proof.
  unfold emit, emit_world, event_data, listeners_of, bind, now, log, modify_host, gets.
  simpl. destruct (eventListeners (this w) !! event) as [callbacks|] eqn:E; simpl.
  - rewrite forEach_dispatch. simpl. unfold add_trace. simpl.
    by rewrite <- app_assoc.
  - unfold ret, add_trace. simpl. done.
Qed.

Lemma events_app t1 t2 : events (t1 ++ t2) = events t1 ++ events t2.
Proof. unfold events. apply omap_app. Qed.

Lemma events_dispatch callbacks e : events (dispatch callbacks e) = [].
Proof.
  induction callbacks as [|cb l IH]; [done|].
  unfold dispatch in *. simpl. destruct (cb_run cb e); simpl; exact IH.
Qed.

(** ** One attempt of [check] *)

Lemma compareVersion_eq env new w :
  compareVersion env new w = (Returned (compare_info env new w), compare_world new w).
Proof.
  unfold compareVersion, compare_info, compare_world, bind, gets, now, modify_this, ret.
  destruct w as [[o stored t n l] h]; simpl.
  destruct stored as [cur|]; simpl; [|done].
  destruct new as [n'|]; simpl; [|done].
  destruct (n' =? cur)%string; reflexivity.
Qed.

Lemma check_resume_success env fuel p w response :
  fetch env p = Fulfilled response ->
  ok response = true ->
  check_resume env fuel p w
  = (Returned (settled_info env response w), settled_world env response w).
Proof.
  intros Hfetch Hok. unfold check_resume. apply try_returned.
  eapply bind_step.
  { unfold await_fetch. rewrite Hfetch. reflexivity. }
  rewrite Hok. cbn [negb]. step_gets. step_with compareVersion_eq.
  unfold settled_world.
  match goal with |- context [if updateAvailable ?i then emit _ _ _ else _] =>
    change i with (settled_info env response w) end.
  destruct (updateAvailable (settled_info env response w)).
  - step_with emit_eq. reflexivity.
  - reflexivity.
Qed.

Lemma check_resume_fails env fuel p w err :
  failure_of (fetch env p) = Some err ->
  check_resume env fuel p w
  = if retryCount (this w) <? retryTimes (options (this w))
    then check_fuel env fuel (retrying_world env err w)
    else (Thrown err, rejected_world env err w).
Proof.
  intros Hfail. unfold check_resume.
  eapply try_caught with (v := err) (w' := w).
  { unfold await_fetch.
    destruct (fetch env p) as [r|reason]; simpl in Hfail.
    - destruct (ok r) eqn:Hok; [done|]. injection Hfail as <-.
      eapply bind_step; [reflexivity|]. rewrite Hok. reflexivity.
    - injection Hfail as <-. reflexivity. }
  step_with emit_eq. step_gets. step_gets.
  change (retryCount (this (emit_world env EvError (ErrorPayload err) w)))
    with (retryCount (this w)).
  change (retryTimes (options (this (emit_world env EvError (ErrorPayload err) w))))
    with (retryTimes (options (this w))).
  destruct (retryCount (this w) <? retryTimes (options (this w))).
  - step_with modify_this_eq. step_gets. step_with emit_eq. step_gets.
    eapply bind_step; [reflexivity|]. reflexivity.
  - step_with modify_this_eq. reflexivity.
Qed.

Lemma check_begin_eq env w :
  check_begin env w = (Returned (fetchCalls (host w)), begun_world env w).
Proof.
  unfold check_begin. step_with emit_eq. step_gets. reflexivity.
Qed.

(** A call of [check] is its synchronous start followed by the rest of the
    call on the promise of its fetch. *)
Lemma check_fuel_resume env fuel w :
  check_fuel env (S fuel) w
  = check_resume env fuel (fetchCalls (host w)) (begun_world env w).
Proof.
  cbn [check_fuel]. unfold check_resume, try_catch.
  match goal with |- match ?m w with _ => _ end = match ?m' ?w' with _ => _ end =>
    assert (Hm : m w = m' w') end.
  { step_with emit_eq. step_gets. step_with fetch_call_eq. reflexivity. }
  rewrite Hm. reflexivity.
Qed.

Lemma check_fuel_success env fuel w response :
  fetch env (fetchCalls (host w)) = Fulfilled response ->
  ok response = true ->
  check_fuel env (S fuel) w
  = (Returned (success_info env response w), success_world env response w).
Proof.
  intros Hfetch Hok. rewrite check_fuel_resume.
  by apply check_resume_success.
Qed.

Lemma check_fuel_attempt_fails env fuel w err :
  failure_of (fetch env (fetchCalls (host w))) = Some err ->
  check_fuel env (S fuel) w
  = if retryCount (this w) <? retryTimes (options (this w))
    then check_fuel env fuel (retry_world env err w)
    else (Thrown err, exhausted_world env err w).
Proof.
  intros Hfail. rewrite check_fuel_resume.
  rewrite (check_resume_fails env fuel _ _ err Hfail). reflexivity.
Qed.

(** Every fetch outcome is a success or a failure of the attempt. *)
Lemma fetch_outcome_cases o :
  (exists response, o = Fulfilled response /\ ok response = true) \/
  (exists err, failure_of o = Some err).
Proof.
  destruct o as [r|reason]; simpl.
  - destruct (ok r) eqn:Hok; [left|right]; eauto.
  - right; eauto.
Qed.

(** ** What an attempt leaves untouched *)

Lemma frame_refl w : frame w w.
Proof. by repeat split. Qed.

Lemma frame_trans w1 w2 w3 : frame w1 w2 -> frame w2 w3 -> frame w1 w3.
Proof.
  intros (Ho & Ht & Hl & Hi & Hn & Hr) (Ho' & Ht' & Hl' & Hi' & Hn' & Hr').
  repeat split; try congruence. auto.
Qed.

Lemma frame_emit env event p w : frame w (emit_world env event p w).
Proof. by repeat split. Qed.

Lemma frame_begun env w : frame w (begun_world env w).
Proof. by repeat split. Qed.

Lemma frame_settled env response w : frame w (settled_world env response w).
Proof.
  unfold settled_world.
  destruct (updateAvailable (settled_info env response w)); by repeat split.
Qed.

Lemma frame_retrying env err w : frame w (retrying_world env err w).
Proof. repeat split; try done. simpl. lia. Qed.

Lemma frame_rejected env err w : frame w (rejected_world env err w).
Proof. by repeat split. Qed.

Lemma check_fuel_frame env fuel : forall w, frame w (check_fuel env fuel w).2.
Proof.
  induction fuel as [|fuel IH]; intros w; [apply frame_refl|].
  destruct (fetch_outcome_cases (fetch env (fetchCalls (host w))))
    as [(response & Hfetch & Hok)|(err & Hfail)].
  - rewrite (check_fuel_success env fuel w response Hfetch Hok). simpl.
    eapply frame_trans; [apply frame_begun|apply frame_settled].
  - rewrite (check_fuel_attempt_fails env fuel w err Hfail).
    destruct (retryCount (this w) <? retryTimes (options (this w))).
    + eapply frame_trans; [|apply IH].
      eapply frame_trans; [apply frame_begun|apply frame_retrying].
    + simpl. eapply frame_trans; [apply frame_begun|apply frame_rejected].
Qed.

Lemma check_resume_frame env fuel p w : frame w (check_resume env fuel p w).2.
Proof.
  destruct (fetch_outcome_cases (fetch env p))
    as [(response & Hfetch & Hok)|(err & Hfail)].
  - rewrite (check_resume_success env fuel p w response Hfetch Hok).
    apply frame_settled.
  - rewrite (check_resume_fails env fuel p w err Hfail).
    destruct (retryCount (this w) <? retryTimes (options (this w))).
    + eapply frame_trans; [apply frame_retrying|apply check_fuel_frame].
    + apply frame_rejected.
Qed.

(** ** [check] returns or throws: the fuel of [check_budget] is enough *)

Lemma check_fuel_total env fuel : forall w,
  (Z.to_nat (retryTimes (options (this w)) - retryCount (this w)) < fuel)%nat ->
  (check_fuel env fuel w).1 <> OutOfFuel.
Proof.
  induction fuel as [|fuel IH]; intros w Hfuel; [lia|].
  destruct (fetch_outcome_cases (fetch env (fetchCalls (host w))))
    as [(response & Hfetch & Hok)|(err & Hfail)].
  - by rewrite (check_fuel_success env fuel w response Hfetch Hok).
  - rewrite (check_fuel_attempt_fails env fuel w err Hfail).
    destruct (Z.ltb_spec (retryCount (this w)) (retryTimes (options (this w))))
      as [Hlt|Hge]; [|done].
    apply IH. simpl. lia.
Qed.

Lemma check_total env w : (check env w).1 <> OutOfFuel.
Proof. unfold check, check_budget. apply check_fuel_total. lia. Qed.

(** ** The events of an attempt *)

Lemma events_emit env event p w :
  events (trace (host (emit_world env event p w)))
  = events (trace (host w)) ++ [(event, p)].
Proof.
  simpl. rewrite events_app. f_equal. unfold events at 1. simpl.
  fold (events (dispatch (listeners_of (this w) event) (event_data env event p w))).
  by rewrite events_dispatch.
Qed.

Lemma events_begun env w :
  events (trace (host (begun_world env w)))
  = events (trace (host w)) ++ [(EvCheck, NoPayload)].
Proof.
  unfold begun_world, fetch_call. cbn [snd host trace].
  rewrite events_app, events_emit. simpl. by rewrite app_nil_r.
Qed.

Lemma events_retrying env err w :
  events (trace (host (retrying_world env err w)))
  = events (trace (host w)) ++
    [(EvError, ErrorPayload err); (EvRetry, RetryPayload err (retryCount (this w) + 1))].
Proof.
  unfold retrying_world. cbn [host this add_trace trace].
  rewrite events_app, events_emit. cbn [host].
  rewrite events_emit. simpl. by rewrite app_nil_r, <- app_assoc.
Qed.

Lemma events_rejected env err w :
  events (trace (host (rejected_world env err w)))
  = events (trace (host w)) ++ [(EvError, ErrorPayload err)].
Proof. unfold rejected_world. cbn [host]. apply events_emit. Qed.

Lemma events_settled env response w :
  events (trace (host (settled_world env response w)))
  = events (trace (host w)) ++
    if updateAvailable (settled_info env response w)
    then [(EvUpdate, InfoPayload (settled_info env response w))] else [].
Proof.
  unfold settled_world.
  destruct (updateAvailable (settled_info env response w)).
  - by rewrite events_emit.
  - simpl. by rewrite app_nil_r.
Qed.

Lemma events_retry env err w :
  events (trace (host (retry_world env err w)))
  = events (trace (host w)) ++ retry_events (retryCount (this w)) [err].
Proof.
  unfold retry_world. rewrite events_retrying, events_begun.
  by rewrite <- app_assoc.
Qed.

Lemma events_exhausted env err w :
  events (trace (host (exhausted_world env err w)))
  = events (trace (host w)) ++ [(EvCheck, NoPayload); (EvError, ErrorPayload err)].
Proof.
  unfold exhausted_world. rewrite events_rejected, events_begun.
  by rewrite <- app_assoc.
Qed.

Lemma events_success env response w :
  events (trace (host (success_world env response w)))
  = events (trace (host w)) ++
    (EvCheck, NoPayload) ::
    if updateAvailable (success_info env response w)
    then [(EvUpdate, InfoPayload (success_info env response w))] else [].
Proof.
  unfold success_world. rewrite events_settled, events_begun.
  by rewrite <- app_assoc.
Qed.

(** ** A chain of failed attempts, each retried *)

Lemma retries_world_this env errs : forall w,
  options (this (retries_world env errs w)) = options (this w) /\
  versionTag (this (retries_world env errs w)) = versionTag (this w) /\
  retryCount (this (retries_world env errs w))
    = retryCount (this w) + Z.of_nat (length errs) /\
  fetchCalls (host (retries_world env errs w))
    = (fetchCalls (host w) + length errs)%nat /\
  events (trace (host (retries_world env errs w)))
    = events (trace (host w)) ++ retry_events (retryCount (this w)) errs.
Proof.
  induction errs as [|err errs IH]; intros w.
  - simpl. rewrite app_nil_r. repeat split; lia.
  - unfold retries_world. cbn [fold_left].
    fold (retries_world env errs (retry_world env err w)).
    destruct (IH (retry_world env err w)) as (Ho & Hv & Hr & Hf & He).
    rewrite Ho, Hv, Hr, Hf, He, events_retry.
    repeat split; simpl; try lia.
    by rewrite <- app_assoc.
Qed.

Lemma check_fuel_retries env errs : forall fuel w,
  (forall i err, errs !! i = Some err ->
     failure_of (fetch env (fetchCalls (host w) + i)) = Some err) ->
  retryCount (this w) + Z.of_nat (length errs) <= retryTimes (options (this w)) ->
  check_fuel env (length errs + fuel) w
  = check_fuel env fuel (retries_world env errs w).
Proof.
  induction errs as [|err errs IH]; intros fuel w Hfail Hbudget; [done|].
  cbn [length Nat.add].
  rewrite (check_fuel_attempt_fails env _ w err).
  2:{ specialize (Hfail 0%nat err eq_refl). by rewrite Nat.add_0_r in Hfail. }
  simpl in Hbudget.
  destruct (Z.ltb_spec (retryCount (this w)) (retryTimes (options (this w))))
    as [Hlt|Hge]; [|lia].
  rewrite IH; [done| |simpl; lia].
  intros i e Hi. specialize (Hfail (S i) e Hi).
  replace (fetchCalls (host (retry_world env err w)) + i)%nat
    with (fetchCalls (host w) + S i)%nat by (simpl; lia).
  done.
Qed.

(** ** What a settled [check] went through *)

(** A [check] that returns went through some failed attempts, each retried,
    and then an attempt answered by a successful response. *)
Lemma check_fuel_returned env fuel : forall w info w',
  check_fuel env fuel w = (Returned info, w') ->
  exists errs response,
    (forall i err, errs !! i = Some err ->
       failure_of (fetch env (fetchCalls (host w) + i)) = Some err) /\
    fetch env (fetchCalls (host w) + length errs) = Fulfilled response /\
    ok response = true /\
    info = success_info env response (retries_world env errs w) /\
    w' = success_world env response (retries_world env errs w).
Proof.
  induction fuel as [|fuel IH]; intros w info w' Hrun; [done|].
  destruct (fetch_outcome_cases (fetch env (fetchCalls (host w))))
    as [(response & Hfetch & Hok)|(err & Hfail)].
  - rewrite (check_fuel_success env fuel w response Hfetch Hok) in Hrun.
    injection Hrun as <- <-. exists [], response.
    rewrite Nat.add_0_r. by repeat split.
  - rewrite (check_fuel_attempt_fails env fuel w err Hfail) in Hrun.
    destruct (retryCount (this w) <? retryTimes (options (this w))); [|done].
    destruct (IH _ _ _ Hrun) as (errs & response & Hfails & Hfetch & Hok & -> & ->).
    exists (err :: errs), response. repeat split; try done.
    + intros [|i] e Hi.
      * rewrite Nat.add_0_r. simpl in Hi. by injection Hi as <-.
      * specialize (Hfails i e Hi).
        replace (fetchCalls (host w) + S i)%nat
          with (fetchCalls (host (retry_world env err w)) + i)%nat by (simpl; lia).
        done.
    + replace (fetchCalls (host w) + length (err :: errs))%nat
        with (fetchCalls (host (retry_world env err w)) + length errs)%nat
        by (simpl; lia).
      done.
Qed.

(** A [check] that rejects went through some failed attempts, each retried,
    and then a failed attempt with the retry counter at [retryTimes] or
    above; it rejects with the failure of that last attempt. *)
Lemma check_fuel_thrown env fuel : forall w v w',
  check_fuel env fuel w = (Thrown v, w') ->
  exists errs,
    (forall i err, errs !! i = Some err ->
       failure_of (fetch env (fetchCalls (host w) + i)) = Some err) /\
    failure_of (fetch env (fetchCalls (host w) + length errs)) = Some v /\
    w' = exhausted_world env v (retries_world env errs w).
Proof.
  induction fuel as [|fuel IH]; intros w v w' Hrun; [done|].
  destruct (fetch_outcome_cases (fetch env (fetchCalls (host w))))
    as [(response & Hfetch & Hok)|(err & Hfail)].
  - by rewrite (check_fuel_success env fuel w response Hfetch Hok) in Hrun.
  - rewrite (check_fuel_attempt_fails env fuel w err Hfail) in Hrun.
    destruct (retryCount (this w) <? retryTimes (options (this w))).
    + destruct (IH _ _ _ Hrun) as (errs & Hfails & Hlast & ->).
      exists (err :: errs). repeat split; try done.
      * intros [|i] e Hi.
        -- rewrite Nat.add_0_r. simpl in Hi. by injection Hi as <-.
        -- specialize (Hfails i e Hi).
           replace (fetchCalls (host w) + S i)%nat
             with (fetchCalls (host (retry_world env err w)) + i)%nat by (simpl; lia).
           done.
      * replace (fetchCalls (host w) + length (err :: errs))%nat
          with (fetchCalls (host (retry_world env err w)) + length errs)%nat
          by (simpl; lia).
        done.
    + injection Hrun as <- <-. exists []. rewrite Nat.add_0_r. by repeat split.
Qed.

Lemma new_events_app w w' l :
  events (trace (host w')) = events (trace (host w)) ++ l -> new_events w w' = l.
Proof. intros H. unfold new_events. rewrite H. apply drop_app_length. Qed.

Lemma success_world_this env response w :
  this (success_world env response w)
  = set_versionTag
      (next_tag (versionTag (this w))
                (selectVersionTag (compareStrategy (options (this w))) response))
      (this w).
Proof.
  unfold success_world, settled_world.
  destruct (updateAvailable (settled_info env response (begun_world env w)));
    reflexivity.
Qed.

Lemma success_world_fetchCalls env response w :
  fetchCalls (host (success_world env response w)) = S (fetchCalls (host w)).
Proof.
  unfold success_world, settled_world.
  destruct (updateAvailable (settled_info env response (begun_world env w)));
    reflexivity.
Qed.

(** The summary of failed attempts, each retried, followed by a successful
    one. *)
Lemma success_summary env errs response w :
  let info := success_info env response (retries_world env errs w) in
  let w' := success_world env response (retries_world env errs w) in
  currentVersion info = versionTag (this w) /\
  newVersion info = selectVersionTag (compareStrategy (options (this w))) response /\
  updateAvailable info = is_update (versionTag (this w)) (newVersion info) /\
  versionTag (this w') = next_tag (versionTag (this w)) (newVersion info) /\
  retryCount (this w') = retryCount (this w) + Z.of_nat (length errs) /\
  fetchCalls (host w') = S (fetchCalls (host w) + length errs) /\
  new_events w w'
  = retry_events (retryCount (this w)) errs ++
    (EvCheck, NoPayload) ::
    if updateAvailable info then [(EvUpdate, InfoPayload info)] else [].
Proof.
  intros info w'. subst info w'.
  destruct (retries_world_this env errs w) as (Ho & Hv & Hr & Hf & He).
  set (W := retries_world env errs w) in *.
  assert (Hcur : currentVersion (success_info env response W) = versionTag (this w))
    by (rewrite <- Hv; reflexivity).
  assert (Hnew : newVersion (success_info env response W)
                 = selectVersionTag (compareStrategy (options (this w))) response)
    by (rewrite <- Ho; reflexivity).
  assert (Hupd : updateAvailable (success_info env response W)
                 = is_update (versionTag (this w)) (newVersion (success_info env response W)))
    by (rewrite <- Hv; reflexivity).
  repeat split; try done.
  - rewrite success_world_this. cbn [versionTag set_versionTag].
    rewrite Hnew, Hv, Ho. done.
  - rewrite success_world_this. cbn [retryCount set_versionTag]. done.
  - rewrite success_world_fetchCalls, Hf. done.
  - apply new_events_app. rewrite events_success, He. by rewrite <- app_assoc.
Qed.

(** The summary of a [check] that returns. *)
Lemma check_returned env w info w' :
  check env w = (Returned info, w') ->
  exists errs response,
    (forall i err, errs !! i = Some err ->
       failure_of (fetch env (fetchCalls (host w) + i)) = Some err) /\
    fetch env (fetchCalls (host w) + length errs) = Fulfilled response /\
    ok response = true /\
    currentVersion info = versionTag (this w) /\
    newVersion info = selectVersionTag (compareStrategy (options (this w))) response /\
    updateAvailable info = is_update (versionTag (this w)) (newVersion info) /\
    versionTag (this w') = next_tag (versionTag (this w)) (newVersion info) /\
    retryCount (this w') = retryCount (this w) + Z.of_nat (length errs) /\
    fetchCalls (host w') = S (fetchCalls (host w) + length errs) /\
    new_events w w'
    = retry_events (retryCount (this w)) errs ++
      (EvCheck, NoPayload) ::
      if updateAvailable info then [(EvUpdate, InfoPayload info)] else [].
Proof.
  intros Hrun. unfold check in Hrun.
  destruct (check_fuel_returned _ _ _ _ _ Hrun)
    as (errs & response & Hfails & Hfetch & Hok & -> & ->).
  exists errs, response. split; [done|]. split; [done|]. split; [done|].
  apply success_summary.
Qed.

(** The summary of a [check] that rejects. *)
Lemma check_thrown env w v w' :
  check env w = (Thrown v, w') ->
  exists errs,
    (forall i err, errs !! i = Some err ->
       failure_of (fetch env (fetchCalls (host w) + i)) = Some err) /\
    failure_of (fetch env (fetchCalls (host w) + length errs)) = Some v /\
    versionTag (this w') = versionTag (this w) /\
    retryCount (this w') = 0 /\
    fetchCalls (host w') = S (fetchCalls (host w) + length errs) /\
    new_events w w'
    = retry_events (retryCount (this w)) errs ++
      [(EvCheck, NoPayload); (EvError, ErrorPayload v)].
Proof.
  intros Hrun. unfold check in Hrun.
  destruct (check_fuel_thrown _ _ _ _ _ Hrun) as (errs & Hfails & Hlast & ->).
  destruct (retries_world_this env errs w) as (Ho & Hv & Hr & Hf & He).
  exists errs. repeat split; try done.
  - cbn. by rewrite <- Hf.
  - apply new_events_app. rewrite events_exhausted, He. by rewrite <- app_assoc.
Qed.

(** A [check] whose first attempts fail with [errs], within the budget left,
    and whose next attempt is answered by a successful response, returns. *)
Lemma check_retries_then_success env errs w response :
  (forall i err, errs !! i = Some err ->
     failure_of (fetch env (fetchCalls (host w) + i)) = Some err) ->
  retryCount (this w) + Z.of_nat (length errs) <= retryTimes (options (this w)) ->
  fetch env (fetchCalls (host w) + length errs) = Fulfilled response ->
  ok response = true ->
  check env w
  = (Returned (success_info env response (retries_world env errs w)),
     success_world env response (retries_world env errs w)).
Proof.
  intros Hfails Hbudget Hfetch Hok. unfold check, check_budget.
  replace (S (Z.to_nat (retryTimes (options (this w)) - retryCount (this w))))
    with (length errs
          + S (Z.to_nat (retryTimes (options (this w)) - retryCount (this w))
               - length errs))%nat by lia.
  rewrite check_fuel_retries by done.
  apply check_fuel_success; [|done].
  destruct (retries_world_this env errs w) as (_ & _ & _ & -> & _). done.
Qed.

(** ** Events of a kind *)

Lemma of_kind_app k l1 l2 : of_kind k (l1 ++ l2) = of_kind k l1 ++ of_kind k l2.
Proof. unfold of_kind. apply omap_app. Qed.

Lemma of_kind_cons k k' p l :
  of_kind k ((k', p) :: l)
  = if decide (k' = k) then p :: of_kind k l else of_kind k l.
Proof. unfold of_kind. simpl. by destruct (decide (k' = k)). Qed.

Lemma of_kind_retry_events_retry count errs :
  of_kind EvRetry (retry_events count errs)
  = imap (fun i err => RetryPayload err (count + Z.of_nat i + 1)) errs.
Proof.
  revert count. induction errs as [|err errs IH]; intros count; [done|].
  cbn [retry_events]. rewrite !of_kind_cons.
  repeat (case_decide; try done). cbn [imap]. rewrite IH.
  f_equal; [f_equal; lia|].
  apply imap_ext. intros i e _. simpl. f_equal. lia.
Qed.

Lemma of_kind_retry_events_update count errs :
  of_kind EvUpdate (retry_events count errs) = [].
Proof.
  revert count. induction errs as [|err errs IH]; intros count; [done|].
  cbn [retry_events]. rewrite !of_kind_cons.
  repeat (case_decide; try done).
Qed.

(** ** [start] and [stop] *)

Lemma start_armed env w handle :
  timer (this w) = Some handle -> start env w = (Returned tt, w).
Proof. intros Ht. unfold start. step_gets. by rewrite Ht. Qed.

Lemma start_idle env w :
  timer (this w) = None ->
  exists w',
    start env w = (Returned tt, w') /\
    timer (this w') = Some (nextTimer (host w)) /\
    intervals (host w') = intervals (host w) ++ [nextTimer (host w)] /\
    retryCount (this w') = retryCount (this w) /\
    versionTag (this w') = versionTag (this w) /\
    fetchCalls (host w') = S (fetchCalls (host w)) /\
    new_events w w' = [(EvStart, NoPayload); (EvCheck, NoPayload)].
Proof.
  intros Ht. eexists. split.
  { unfold start. step_gets. rewrite Ht.
    step_with emit_eq. step_with check_begin_eq. step_gets.
    eapply bind_step; [reflexivity|]. reflexivity. }
  repeat split. apply new_events_app. cbn [host trace].
  rewrite events_app, events_begun, events_emit. simpl.
  by rewrite app_nil_r, <- app_assoc.
Qed.

Lemma stop_idle env w : timer (this w) = None -> stop env w = (Returned tt, w).
Proof. intros Ht. unfold stop. step_gets. by rewrite Ht. Qed.

Lemma stop_armed env w handle :
  timer (this w) = Some handle ->
  exists w',
    stop env w = (Returned tt, w') /\
    timer (this w') = None /\
    intervals (host w') = filter (fun h => h <> handle) (intervals (host w)) /\
    retryCount (this w') = retryCount (this w) /\
    versionTag (this w') = versionTag (this w) /\
    fetchCalls (host w') = fetchCalls (host w) /\
    new_events w w' = [(EvStop, NoPayload)].
Proof.
  intros Ht. eexists. split.
  { unfold stop. step_gets. rewrite Ht.
    eapply bind_step; [reflexivity|]. step_with modify_this_eq.
    apply emit_eq. }
  repeat split. apply new_events_app. rewrite events_emit. cbn [host trace].
  rewrite events_app. simpl. by rewrite app_nil_r.
Qed.

(** ** The invariant of the reachable states *)

Lemma bind_ret_world {A} (m : M A) w : ((m >> ret tt) w).2 = (m w).2.
Proof. unfold bind. by destruct (m w) as [[a|v|] w']. Qed.

Lemma inv_frame w w' : frame w w' -> inv w -> inv w'.
Proof.
  intros (_ & Ht & _ & Hi & _ & Hr) [Hcount Htimer]. split; [auto|].
  by rewrite Hi, Ht.
Qed.

Lemma start_inv env w : inv w -> inv (start env w).2.
Proof.
  intros [Hcount Htimer]. destruct (timer (this w)) as [handle|] eqn:Ht.
  - rewrite (start_armed env w handle Ht). simpl. split; [done|]. by rewrite Ht.
  - destruct (start_idle env w Ht) as (w' & -> & Ht' & Hi & Hr & _).
    simpl. split; [lia|]. by rewrite Hi, Ht', Htimer.
Qed.

Lemma stop_inv env w : inv w -> inv (stop env w).2.
Proof.
  intros [Hcount Htimer]. destruct (timer (this w)) as [handle|] eqn:Ht.
  - destruct (stop_armed env w handle Ht) as (w' & -> & Ht' & Hi & Hr & _).
    simpl. split; [lia|]. rewrite Hi, Ht', Htimer.
    rewrite filter_cons. by case_decide.
  - rewrite (stop_idle env w Ht). simpl. split; [done|]. by rewrite Ht.
Qed.

Lemma run_op_inv env o w : inv w -> inv (run_op env o w).2.
Proof.
  intros Hinv. destruct o as [| | |event cb|event cb|event p|handle|promise];
    cbn [run_op].
  - by apply start_inv.
  - by apply stop_inv.
  - rewrite bind_ret_world. eapply inv_frame; [|done].
    apply check_fuel_frame.
  - unfold on, bind, gets, modify_this, ret.
    destruct Hinv as [Hcount Htimer].
    destruct (eventListeners (this w) !! event); simpl;
      repeat match goal with |- context [match ?m !! ?k with _ => _ end] =>
               destruct (m !! k) end; by split.
  - unfold off, modify_this. simpl. destruct Hinv as [Hcount Htimer].
    destruct (eventListeners (this w) !! event); by split.
  - unfold triggerEvent. rewrite emit_eq. simpl.
    eapply inv_frame; [apply frame_emit|done].
  - unfold interval_fires, bind. simpl. case_bool_decide; [|done].
    rewrite check_begin_eq. simpl.
    eapply inv_frame; [apply frame_begun|done].
  - rewrite bind_ret_world. eapply inv_frame; [|done].
    apply check_resume_frame.
Qed.

Lemma reachable_inv env w : reachable env w -> inv w.
Proof.
  induction 1 as [o h Hidle|w o _ IH]; [|by apply run_op_inv].
  unfold new_VersionChecker.
  set (w0 := {| this := fresh_checker (merge_options DEFAULT_OPTIONS o); host := h |}).
  assert (Hinv0 : inv w0) by (split; [done|exact Hidle]).
  destruct (autoStart (merge_options DEFAULT_OPTIONS o)); [|done].
  by apply start_inv.
Qed.

Lemma of_kind_retry_events_error count errs :
  of_kind EvError (retry_events count errs) = map ErrorPayload errs.
Proof.
  revert count. induction errs as [|err errs IH]; intros count; [done|].
  cbn [retry_events]. rewrite !of_kind_cons.
  repeat (case_decide; try done). cbn [map]. by rewrite IH.
Qed.

(** ** The outcome of [check] does not depend on the listeners *)

Lemma core_begun env w1 w2 :
  core w1 = core w2 -> core (begun_world env w1) = core (begun_world env w2).
Proof. unfold core. cbn. intros H. injection H as Ho Hv Hr Hc Hf. congruence. Qed.

Lemma core_settled_info env response w1 w2 :
  core w1 = core w2 -> settled_info env response w1 = settled_info env response w2.
Proof.
  unfold core, settled_info, compare_info. intros H.
  injection H as Ho Hv Hr Hc Hf. congruence.
Qed.

Lemma core_settled env response w1 w2 :
  core w1 = core w2 ->
  core (settled_world env response w1) = core (settled_world env response w2).
Proof.
  intros H. unfold settled_world.
  rewrite (core_settled_info env response w1 w2 H).
  unfold core in *. injection H as Ho Hv Hr Hc Hf.
  destruct (updateAvailable (settled_info env response w2)); cbn; congruence.
Qed.

Lemma core_retrying env err w1 w2 :
  core w1 = core w2 ->
  core (retrying_world env err w1) = core (retrying_world env err w2).
Proof. unfold core. cbn. intros H. injection H as Ho Hv Hr Hc Hf. congruence. Qed.

Lemma core_rejected env err w1 w2 :
  core w1 = core w2 ->
  core (rejected_world env err w1) = core (rejected_world env err w2).
Proof. unfold core. cbn. intros H. injection H as Ho Hv Hr Hc Hf. congruence. Qed.

Lemma check_fuel_core env fuel : forall w1 w2,
  core w1 = core w2 ->
  (check_fuel env fuel w1).1 = (check_fuel env fuel w2).1 /\
  core (check_fuel env fuel w1).2 = core (check_fuel env fuel w2).2.
Proof.
  induction fuel as [|fuel IH]; intros w1 w2 Hcore; [done|].
  assert (Hcalls : fetchCalls (host w1) = fetchCalls (host w2))
    by (unfold core in Hcore; congruence).
  assert (Hcount : retryCount (this w1) = retryCount (this w2))
    by (unfold core in Hcore; congruence).
  assert (Hopts : options (this w1) = options (this w2))
    by (unfold core in Hcore; congruence).
  destruct (fetch_outcome_cases (fetch env (fetchCalls (host w1))))
    as [(response & Hfetch & Hok)|(err & Hfail)].
  - rewrite (check_fuel_success env fuel w1 response Hfetch Hok).
    rewrite Hcalls in Hfetch.
    rewrite (check_fuel_success env fuel w2 response Hfetch Hok).
    cbn [fst snd]. unfold success_info, success_world. split.
    + f_equal. by apply core_settled_info, core_begun.
    + by apply core_settled, core_begun.
  - rewrite (check_fuel_attempt_fails env fuel w1 err Hfail).
    rewrite Hcalls in Hfail.
    rewrite (check_fuel_attempt_fails env fuel w2 err Hfail).
    rewrite Hcount, Hopts.
    destruct (retryCount (this w2) <? retryTimes (options (this w2))).
    + apply IH. by apply core_retrying, core_begun.
    + cbn [fst snd]. split; [done|]. by apply core_rejected, core_begun.
Qed.

Lemma check_core env w1 w2 :
  core w1 = core w2 ->
  (check env w1).1 = (check env w2).1 /\
  core (check env w1).2 = core (check env w2).2.
Proof.
  intros Hcore. unfold check.
  replace (check_budget (this w1)) with (check_budget (this w2))
    by (unfold check_budget, core in *; congruence).
  by apply check_fuel_core.
Qed.

(** * The claims *)

(** C1.  The claim: after a [check] that completes successfully, on the first
    attempt or after retries, the retry counter is 0, so that a later failing
    [check] has the full budget of [retryTimes] retries.  The code resets the
    counter only where it gives up; a [check] that succeeds after a retry
    leaves it as the retries made it.  Here [retryTimes] is 1: the first
    [check] fails once, is retried and returns, and leaves the counter at 1;
    the second [check] fails and is rejected after a single attempt, with no
    retry at all. *)
Theorem retry_counter_kept_after_recovered_check :
  let w0 := (new_VersionChecker env_fail_ok_fail (manual 1) host0).2 in
  let first := check env_fail_ok_fail w0 in
  let second := check env_fail_ok_fail first.2 in
  retryTimes (options (this w0)) = 1 /\
  retryCount (this w0) = 0 /\
  (exists info, first.1 = Returned info) /\
  of_kind EvRetry (new_events w0 first.2) = [RetryPayload net_error 1] /\
  retryCount (this first.2) = 1 /\
  second.1 = Thrown net_error /\
  fetchCalls (host second.2) = S (fetchCalls (host first.2)) /\
  of_kind EvRetry (new_events first.2 second.2) = [].
Proof.
  vm_compute. repeat split; eauto.
Qed.

(** C2.  With [retryTimes] N > 0 and the retry counter at 0, if the fetch
    fails on the first N attempts of a [check], with the errors [errs], and
    is answered successfully on the next, then [check] returns the result of
    that last attempt; [retry] is emitted exactly N times, with [retryCount]
    1, 2, ..., N and the error of the attempt, and each of these emissions
    comes right after the [error] event of the same attempt. *)
Theorem check_recovers_within_budget env w N errs response :
  0 < N ->
  retryTimes (options (this w)) = N ->
  retryCount (this w) = 0 ->
  Z.of_nat (length errs) = N ->
  (forall i err, errs !! i = Some err ->
     failure_of (fetch env (fetchCalls (host w) + i)) = Some err) ->
  fetch env (fetchCalls (host w) + length errs) = Fulfilled response ->
  ok response = true ->
  exists info w',
    check env w = (Returned info, w') /\
    currentVersion info = versionTag (this w) /\
    newVersion info = selectVersionTag (compareStrategy (options (this w))) response /\
    updateAvailable info = is_update (versionTag (this w)) (newVersion info) /\
    fetchCalls (host w') = S (fetchCalls (host w) + length errs) /\
    of_kind EvRetry (new_events w w')
    = imap (fun i err => RetryPayload err (Z.of_nat i + 1)) errs /\
    length (of_kind EvRetry (new_events w w')) = Z.to_nat N /\
    of_kind EvError (new_events w w') = map ErrorPayload errs /\
    new_events w w'
    = retry_events 0 errs ++
      (EvCheck, NoPayload) ::
      if updateAvailable info then [(EvUpdate, InfoPayload info)] else [].
Proof.
  intros HN Htimes Hcount Hlen Hfails Hfetch Hok.
  eexists _, _. split.
  { apply check_retries_then_success; [done|lia|done|done]. }
  destruct (success_summary env errs response w)
    as (Hcur & Hnew & Hupd & _ & _ & Hcalls & Hev).
  rewrite Hcount in Hev.
  assert (Hretry : of_kind EvRetry
            (new_events w (success_world env response (retries_world env errs w)))
          = imap (fun i err => RetryPayload err (Z.of_nat i + 1)) errs).
  { rewrite Hev, of_kind_app, of_kind_retry_events_retry, of_kind_cons.
    case_decide; [done|].
    destruct (updateAvailable (success_info env response (retries_world env errs w)));
      cbn; rewrite app_nil_r; apply imap_ext; intros i e _; simpl; f_equal; lia. }
  assert (Herror : of_kind EvError
            (new_events w (success_world env response (retries_world env errs w)))
          = map ErrorPayload errs).
  { rewrite Hev, of_kind_app, of_kind_retry_events_error, of_kind_cons.
    case_decide; [done|].
    destruct (updateAvailable (success_info env response (retries_world env errs w)));
      cbn; by rewrite app_nil_r. }
  repeat split; try done.
  rewrite Hretry, length_imap. lia.
Qed.

Lemma check_recovers_within_budget_witness :
  exists info w',
    check env_two_failures (new_VersionChecker env_two_failures (manual 2) host0).2
    = (Returned info, w') /\
    of_kind EvRetry
      (new_events (new_VersionChecker env_two_failures (manual 2) host0).2 w')
    = [RetryPayload net_error 1; RetryPayload (http_error not_found) 2].
Proof.
  destruct (check_recovers_within_budget env_two_failures
              (new_VersionChecker env_two_failures (manual 2) host0).2 2
              [net_error; http_error not_found]
              (response_with [("etag", "W/123")]))
    as (info & w' & Hrun & _ & _ & _ & _ & Hretry & _).
  - lia.
  - vm_compute; reflexivity.
  - vm_compute; reflexivity.
  - vm_compute; reflexivity.
  - intros [|[|i]] err Hi; simpl in Hi; inversion Hi; vm_compute; reflexivity.
  - vm_compute; reflexivity.
  - vm_compute; reflexivity.
  - exists info, w'. split; [exact Hrun|exact Hretry].
Defined.

(** C3.  With [retryTimes] 0, a [check] whose fetch fails (by rejection or by
    a response that is not ok) rejects with that very error after exactly
    one fetch; [error] is emitted once, with the error as payload, [retry] is
    not emitted, and the retry counter is 0 afterwards. *)
Theorem check_rejects_when_retry_disabled env w err :
  reachable env w ->
  retryTimes (options (this w)) = 0 ->
  failure_of (fetch env (fetchCalls (host w))) = Some err ->
  exists w',
    check env w = (Thrown err, w') /\
    fetchCalls (host w') = S (fetchCalls (host w)) /\
    new_events w w' = [(EvCheck, NoPayload); (EvError, ErrorPayload err)] /\
    of_kind EvError (new_events w w') = [ErrorPayload err] /\
    of_kind EvRetry (new_events w w') = [] /\
    retryCount (this w') = 0.
Proof.
  intros Hreach Htimes Hfail.
  destruct (reachable_inv env w Hreach) as [Hcount _].
  exists (exhausted_world env err w).
  assert (Hrun : check env w = (Thrown err, exhausted_world env err w)).
  { unfold check, check_budget.
    rewrite (check_fuel_attempt_fails env _ w err Hfail), Htimes.
    destruct (Z.ltb_spec (retryCount (this w)) 0); [lia|done]. }
  assert (Hev : new_events w (exhausted_world env err w)
                = [(EvCheck, NoPayload); (EvError, ErrorPayload err)])
    by (apply new_events_app, events_exhausted).
  rewrite Hev. repeat split; done.
Qed.

Lemma check_rejects_when_retry_disabled_witness :
  exists w',
    check env_down (new_VersionChecker env_down (manual 0) host0).2
    = (Thrown net_error, w') /\
    retryCount (this w') = 0.
Proof.
  destruct (check_rejects_when_retry_disabled env_down
              (new_VersionChecker env_down (manual 0) host0).2 net_error)
    as (w' & Hrun & _ & _ & _ & _ & Hcount).
  - apply reachable_new. reflexivity.
  - vm_compute; reflexivity.
  - vm_compute; reflexivity.
  - exists w'. split; [exact Hrun|exact Hcount].
Defined.

(** C4.  On a checker whose stored marker is null, as on a fresh instance, a
    [check] that returns reports [updateAvailable] false whatever marker was
    extracted from the answering response, stores that marker (null
    included), and emits no [update] event. *)
Theorem first_check_seeds_marker env w info w' :
  versionTag (this w) = None ->
  check env w = (Returned info, w') ->
  updateAvailable info = false /\
  currentVersion info = None /\
  versionTag (this w') = newVersion info /\
  of_kind EvUpdate (new_events w w') = [] /\
  exists response,
    fetch env (pred (fetchCalls (host w'))) = Fulfilled response /\
    ok response = true /\
    newVersion info = selectVersionTag (compareStrategy (options (this w))) response.
Proof.
  intros Hnull Hrun.
  destruct (check_returned env w info w' Hrun)
    as (errs & response & _ & Hfetch & Hok & Hcur & Hnew & Hupd & Htag & _ & Hcalls & Hev).
  rewrite Hnull in *. cbn in Hupd, Htag.
  repeat split; try done.
  - rewrite Hev, Hupd, of_kind_app, of_kind_retry_events_update, of_kind_cons.
    by case_decide.
  - exists response. rewrite Hcalls. done.
Qed.

Lemma first_check_seeds_marker_witness :
  exists info w',
    check env_a_b (new_VersionChecker env_a_b (manual 3) host0).2 = (Returned info, w') /\
    newVersion info = Some "A"%string /\
    updateAvailable info = false /\
    versionTag (this w') = newVersion info.
Proof.
  assert (Hsample : exists info w',
            check env_a_b (new_VersionChecker env_a_b (manual 3) host0).2
            = (Returned info, w') /\
            newVersion info = Some "A"%string)
    by (vm_compute; eexists _, _; split; reflexivity).
  destruct Hsample as (info & w' & Hrun & Hnew).
  destruct (first_check_seeds_marker env_a_b
              (new_VersionChecker env_a_b (manual 3) host0).2 info w')
    as (Hupd & _ & Htag & _).
  - vm_compute; reflexivity.
  - exact Hrun.
  - exists info, w'. split; [exact Hrun|]. split; [exact Hnew|].
    split; [exact Hupd|exact Htag].
Defined.

(** C5.  On a checker whose stored marker is the string A, a [check] that
    returns with an extracted marker B, not null and different from A,
    reports [updateAvailable] true with [currentVersion] A and [newVersion]
    B, stores B, and emits exactly one [update] event, which carries that
    result. *)
Theorem changed_marker_signals_update env w info w' A B :
  versionTag (this w) = Some A ->
  check env w = (Returned info, w') ->
  newVersion info = Some B ->
  B <> A ->
  updateAvailable info = true /\
  currentVersion info = Some A /\
  newVersion info = Some B /\
  versionTag (this w') = Some B /\
  of_kind EvUpdate (new_events w w') = [InfoPayload info] /\
  exists response,
    fetch env (pred (fetchCalls (host w'))) = Fulfilled response /\
    ok response = true /\
    selectVersionTag (compareStrategy (options (this w))) response = Some B.
Proof.
  intros Hstored Hrun HB Hne.
  destruct (check_returned env w info w' Hrun)
    as (errs & response & _ & Hfetch & Hok & Hcur & Hnew & Hupd & Htag & _ & Hcalls & Hev).
  rewrite Hstored, HB in *. cbn in Hupd, Htag.
  assert (Hneq : (B =? A)%string = false) by by apply String.eqb_neq.
  rewrite Hneq in Hupd, Htag. cbn in Hupd, Htag.
  repeat split; try done.
  - rewrite Hev, Hupd, of_kind_app, of_kind_retry_events_update, !of_kind_cons.
    by repeat case_decide.
  - exists response. rewrite Hcalls. done.
Qed.

Lemma changed_marker_signals_update_witness :
  exists info w',
    check env_a_b (check env_a_b (new_VersionChecker env_a_b (manual 3) host0).2).2
    = (Returned info, w') /\
    updateAvailable info = true /\
    versionTag (this w') = Some "B"%string /\
    of_kind EvUpdate
      (new_events (check env_a_b (new_VersionChecker env_a_b (manual 3) host0).2).2 w')
    = [InfoPayload info].
Proof.
  assert (Hsample : exists info w',
            check env_a_b (check env_a_b (new_VersionChecker env_a_b (manual 3) host0).2).2
            = (Returned info, w') /\
            newVersion info = Some "B"%string)
    by (vm_compute; eexists _, _; split; reflexivity).
  destruct Hsample as (info & w' & Hrun & Hnew).
  destruct (changed_marker_signals_update env_a_b
              (check env_a_b (new_VersionChecker env_a_b (manual 3) host0).2).2
              info w' "A"%string "B"%string)
    as (Hupd & _ & _ & Htag & Hev & _).
  - vm_compute; reflexivity.
  - exact Hrun.
  - exact Hnew.
  - discriminate.
  - exists info, w'. split; [exact Hrun|].
    split; [exact Hupd|]. split; [exact Htag|exact Hev].
Defined.

(** C6, as the claim words it, fails: with strategy [custom], an [x-version]
    header that is present with an empty value is not taken; the code falls
    back to the ETag header. *)
Lemma empty_x_version_falls_back_to_etag :
  headers_get empty_x_version "x-version" = Some ""%string /\
  selectVersionTag_spec "custom" empty_x_version = Some ""%string /\
  selectVersionTag "custom" empty_x_version = Some "W/123"%string /\
  selectVersionTag "custom" empty_x_version
  <> selectVersionTag_spec "custom" empty_x_version.
Proof. vm_compute. repeat split; congruence. Qed.

(** C6, amended.  The extracted marker is: for [etag], the ETag header or
    null; for [last-modified], the Last-Modified header or null; for
    [custom], the x-version header when it is present and not empty,
    otherwise the ETag header or null; for any other strategy, the ETag
    header when it is present and not empty, otherwise the Last-Modified
    header or null.  Where the header consulted first is absent or not
    empty, this is the rule of the claim. *)
Theorem selectVersionTag_by_strategy strategy response :
  selectVersionTag strategy response
  = (if decide (strategy = "etag") then headers_get response "etag"
     else if decide (strategy = "last-modified") then headers_get response "last-modified"
     else if decide (strategy = "custom") then
       match headers_get response "x-version" with
       | Some v => if decide (v = "") then headers_get response "etag" else Some v
       | None => headers_get response "etag"
       end
     else
       match headers_get response "etag" with
       | Some v => if decide (v = "") then headers_get response "last-modified" else Some v
       | None => headers_get response "last-modified"
       end) /\
  (headers_get response "x-version" <> Some ""%string ->
   headers_get response "etag" <> Some ""%string ->
   selectVersionTag strategy response = selectVersionTag_spec strategy response).
Proof.
  assert (Hor : forall a b,
            js_or a b = match a with
                        | Some v => if decide (v = "") then b else Some v
                        | None => b
                        end).
  { intros [v|] b; [|done]. unfold js_or.
    destruct (String.eqb_spec v ""); by case_decide. }
  assert (Hpresent : forall a b, a <> Some ""%string -> js_or a b = first_present a b).
  { intros [v|] b Ha; [|done]. unfold js_or, first_present.
    destruct (String.eqb_spec v ""); [by subst|done]. }
  unfold selectVersionTag, selectVersionTag_spec. split.
  - destruct (String.eqb_spec strategy "etag"); case_decide; try done.
    destruct (String.eqb_spec strategy "last-modified"); case_decide; try done.
    destruct (String.eqb_spec strategy "custom"); case_decide; try done;
      apply Hor.
  - intros Hx He.
    destruct (String.eqb_spec strategy "etag"); case_decide; try done.
    destruct (String.eqb_spec strategy "last-modified"); case_decide; try done.
    destruct (String.eqb_spec strategy "custom"); case_decide; try done;
      by apply Hpresent.
Qed.

(** C7.  A [check] changes the stored marker only when it returns and either
    the stored marker was null (the marker is seeded and no update is
    signalled) or the extracted marker is not null and differs from the
    stored one; the marker is then the extracted one.  A [check] that
    rejects, one that extracts null, and one that extracts the stored
    marker all leave it as it was. *)
Theorem versionTag_changes_only_on_new_marker env w r w' :
  check env w = (r, w') ->
  (versionTag (this w') <> versionTag (this w) ->
   exists info,
     r = Returned info /\
     versionTag (this w') = newVersion info /\
     ((versionTag (this w) = None /\ updateAvailable info = false) \/
      (exists a b, versionTag (this w) = Some a /\ newVersion info = Some b /\ b <> a))) /\
  (forall v, r = Thrown v -> versionTag (this w') = versionTag (this w)) /\
  (forall info, r = Returned info -> newVersion info = None ->
     versionTag (this w') = versionTag (this w)) /\
  (forall info, r = Returned info -> newVersion info = versionTag (this w) ->
     versionTag (this w') = versionTag (this w)) /\
  r <> OutOfFuel.
Proof.
  intros Hrun.
  assert (Hret : forall info, r = Returned info ->
            updateAvailable info = is_update (versionTag (this w)) (newVersion info) /\
            versionTag (this w') = next_tag (versionTag (this w)) (newVersion info)).
  { intros info ->.
    destruct (check_returned env w info w' Hrun)
      as (errs & response & _ & _ & _ & _ & _ & Hupd & Htag & _). done. }
  assert (Hthrown : forall v, r = Thrown v -> versionTag (this w') = versionTag (this w)).
  { intros v ->. by destruct (check_thrown env w v w' Hrun) as (errs & _ & _ & Htag & _). }
  split; [|split; [exact Hthrown|split; [|split]]].
  - intros Hchanged. destruct r as [info|v|].
    + exists info. destruct (Hret info eq_refl) as [Hupd Htag].
      split; [done|]. rewrite Htag in *.
      destruct (versionTag (this w)) as [a|]; [|by split; [|left]].
      destruct (newVersion info) as [b|]; cbn in *; [|done].
      destruct (String.eqb_spec b a); cbn in *; [done|].
      split; [done|]. right. by exists a, b.
    + by specialize (Hthrown v eq_refl).
    + pose proof (check_total env w) as Htot. by rewrite Hrun in Htot.
  - intros info Hr Hnull. destruct (Hret info Hr) as [_ ->]. rewrite Hnull.
    by destruct (versionTag (this w)).
  - intros info Hr Hsame. destruct (Hret info Hr) as [_ ->]. rewrite Hsame.
    destruct (versionTag (this w)) as [a|]; [|done]. cbn.
    by rewrite String.eqb_refl.
  - pose proof (check_total env w) as Htot. by rewrite Hrun in Htot.
Qed.

Lemma versionTag_changes_only_on_new_marker_witness :
  exists r w',
    check env_down (check env_a_b (new_VersionChecker env_a_b (manual 0) host0).2).2
    = (r, w') /\
    r = Thrown net_error /\
    versionTag (this w')
    = versionTag (this (check env_a_b (new_VersionChecker env_a_b (manual 0) host0).2).2).
Proof.
  assert (Hsample : exists r w',
            check env_down (check env_a_b (new_VersionChecker env_a_b (manual 0) host0).2).2
            = (r, w') /\
            r = Thrown net_error)
    by (vm_compute; eexists _, _; split; reflexivity).
  destruct Hsample as (r & w' & Hrun & Hr).
  destruct (versionTag_changes_only_on_new_marker env_down
              (check env_a_b (new_VersionChecker env_a_b (manual 0) host0).2).2
              r w' Hrun) as (_ & Hthrown & _).
  exists r, w'. split; [exact Hrun|]. split; [exact Hr|].
  exact (Hthrown net_error Hr).
Defined.

(** C8.  An emission never throws: every callback registered for the event
    is invoked with the event, also when another one throws, and what a
    callback throws is logged with [console.error]; the checker itself is
    left as it was.  A [check] that rejects rejects with the failure of one
    of its own fetch attempts, and whether and with what a [check] returns
    or rejects does not depend on the listeners at all. *)
Theorem listener_errors_are_contained env :
  (forall event p w,
     exists w',
       emit env event p w = (Returned tt, w') /\
       this w' = this w /\
       trace (host w')
       = trace (host w) ++
         Emitted (event_data env event p w) ::
         dispatch (listeners_of (this w) event) (event_data env event p w) /\
       (forall cb, cb ∈ listeners_of (this w) event ->
          Invoked (cb_id cb) (event_data env event p w) ∈ trace (host w')) /\
       (forall cb v, cb ∈ listeners_of (this w) event ->
          cb_run cb (event_data env event p w) = Some v ->
          ConsoleError "Event listener error:" v ∈ trace (host w'))) /\
  (forall w v w',
     check env w = (Thrown v, w') ->
     exists i,
       (fetchCalls (host w) <= i < fetchCalls (host w'))%nat /\
       failure_of (fetch env i) = Some v) /\
  (forall w1 w2,
     core w1 = core w2 ->
     (check env w1).1 = (check env w2).1 /\
     core (check env w1).2 = core (check env w2).2).
Proof.
  split; [|split].
  - intros event p w. exists (emit_world env event p w).
    split; [apply emit_eq|]. split; [done|]. split; [done|].
    cbn [emit_world host trace]. split.
    + intros cb Hcb. apply elem_of_app. right. apply elem_of_cons. right.
      apply list_elem_of_In, in_flat_map. exists cb.
      split; [by apply list_elem_of_In|]. by left.
    + intros cb v Hcb Hthrows. apply elem_of_app. right. apply elem_of_cons. right.
      apply list_elem_of_In, in_flat_map. exists cb.
      split; [by apply list_elem_of_In|]. rewrite Hthrows. right. by left.
  - intros w v w' Hrun.
    destruct (check_thrown env w v w' Hrun) as (errs & _ & Hlast & _ & _ & Hcalls & _).
    exists (fetchCalls (host w) + length errs)%nat. split; [lia|done].
  - intros w1 w2. apply check_core.
Qed.

(** The listener test of the suite: a listener of [error] that throws, with
    [retryTimes] 0 and a fetch that rejects. *)
Example throwing_error_listener :
  let w0 := run_ops env_down
              [OpOn EvError throwing_listener; OpOn EvError quiet_listener]
              (new_VersionChecker env_down (manual 0) host0).2 in
  let r := check env_down w0 in
  r.1 = Thrown net_error /\
  ConsoleError "Event listener error:" listener_error ∈ trace (host r.2) /\
  (exists e, Invoked 2 e ∈ trace (host r.2) /\ payload e = ErrorPayload net_error).
Proof.
  intros w0 r. split; [vm_compute; reflexivity|]. split.
  - apply list_elem_of_In. vm_compute. tauto.
  - eexists. split.
    + apply list_elem_of_In. vm_compute. do 5 right. left. reflexivity.
    + reflexivity.
Qed.

(** C9.  On a reachable checker: while a timer is armed, [start] does
    nothing at all (the world is unchanged: no [start] event, no check, no
    timer added) and the host has exactly that one active timer; while no
    timer is armed, [stop] does nothing at all (no [stop] event).  [stop]
    never throws, [getTimerState] is false after it, no interval timer is
    left active, and a second [stop] changes nothing. *)
Theorem start_stop_idempotent env w :
  reachable env w ->
  match timer (this w) with
  | Some handle => start env w = (Returned tt, w) /\ intervals (host w) = [handle]
  | None => stop env w = (Returned tt, w) /\ intervals (host w) = []
  end /\
  (stop env w).1 = Returned tt /\
  getTimerState (stop env w).2 = (Returned false, (stop env w).2) /\
  intervals (host (stop env w).2) = [] /\
  stop env (stop env w).2 = (Returned tt, (stop env w).2).
Proof.
  intros Hreach. pose proof (reachable_inv env w Hreach) as [_ Htimer].
  pose proof (stop_inv env w (reachable_inv env w Hreach)) as [_ Htimer'].
  assert (Hstopped : (stop env w).1 = Returned tt /\ timer (this (stop env w).2) = None).
  { destruct (timer (this w)) as [handle|] eqn:Ht.
    - by destruct (stop_armed env w handle Ht) as (w' & -> & Ht' & _).
    - by rewrite (stop_idle env w Ht). }
  destruct Hstopped as [Hok Hnone]. rewrite Hnone in Htimer'.
  split; [|split; [done|split; [|split; [done|]]]].
  - destruct (timer (this w)) as [handle|] eqn:Ht.
    + split; [by apply (start_armed env w handle)|done].
    + split; [by apply stop_idle|done].
  - unfold getTimerState. rewrite gets_eq. by rewrite Hnone.
  - by apply stop_idle.
Qed.

Lemma start_stop_idempotent_witness :
  start env_down (new_VersionChecker env_down None host0).2
  = (Returned tt, (new_VersionChecker env_down None host0).2) /\
  intervals (host (new_VersionChecker env_down None host0).2) = [1%nat].
Proof.
  assert (Harmed : timer (this (new_VersionChecker env_down None host0).2) = Some 1%nat)
    by (vm_compute; reflexivity).
  destruct (start_stop_idempotent env_down (new_VersionChecker env_down None host0).2)
    as (Hnoop & _).
  - apply reachable_new. reflexivity.
  - rewrite Harmed in Hnoop. exact Hnoop.
Defined.

(** What a [check] does to a null stored marker. *)
Lemma check_on_null_marker env w :
  versionTag (this w) = None ->
  (forall info, (check env w).1 = Returned info ->
     updateAvailable info = false /\
     versionTag (this (check env w).2) = newVersion info) /\
  (forall v, (check env w).1 = Thrown v -> versionTag (this (check env w).2) = None).
Proof.
  intros Hnull. destruct (check env w) as [r w'] eqn:Hrun. cbn [fst snd]. split.
  - intros info ->.
    destruct (check_returned env w info w' Hrun)
      as (errs & response & _ & _ & _ & _ & _ & Hupd & Htag & _).
    by rewrite Hnull in *.
  - intros v ->.
    destruct (check_thrown env w v w' Hrun) as (errs & _ & _ & Htag & _).
    by rewrite Htag.
Qed.

(** C10.  Starting from a null stored marker, as long as every [check] that
    returned extracted a null marker, the stored marker is still null and
    each of these checks reported [updateAvailable] false; the next [check]
    that returns, whatever marker it extracts, therefore seeds the marker
    and reports [updateAvailable] false. *)
Theorem null_markers_keep_seeding env n w :
  versionTag (this w) = None ->
  (forall info, Returned info ∈ (checks env n w).1 -> newVersion info = None) ->
  versionTag (this (checks env n w).2) = None /\
  (forall info, Returned info ∈ (checks env n w).1 -> updateAvailable info = false) /\
  (forall info w',
     check env (checks env n w).2 = (Returned info, w') ->
     updateAvailable info = false /\
     currentVersion info = None /\
     versionTag (this w') = newVersion info).
Proof.
  intros Hnull Hall.
  assert (Hmain : versionTag (this (checks env n w).2) = None /\
                  (forall info, Returned info ∈ (checks env n w).1 ->
                     updateAvailable info = false)).
  { revert w Hnull Hall. induction n as [|n IH]; intros w Hnull Hall.
    - split; [done|]. intros info Hin. by apply elem_of_nil in Hin.
    - cbn [checks fst snd] in *.
      destruct (check_on_null_marker env w Hnull) as [Hret Hthrown].
      assert (Hnext : versionTag (this (check env w).2) = None).
      { destruct ((check env w).1) as [info|v|] eqn:Hr.
        - destruct (Hret info eq_refl) as [_ ->].
          apply Hall. apply list_elem_of_here.
        - by apply (Hthrown v).
        - by destruct (check_total env w). }
      destruct (IH (check env w).2 Hnext) as [Htag Hupd].
      { intros info Hin. apply Hall. by apply list_elem_of_further. }
      split; [done|]. intros info Hin.
      apply elem_of_cons in Hin as [Hhead|Htail]; [|by apply Hupd].
      by destruct (Hret info (eq_sym Hhead)). }
  destruct Hmain as [Htag Hupd]. split; [done|]. split; [done|].
  intros info w' Hrun.
  destruct (check_returned env _ info w' Hrun)
    as (errs & response & _ & _ & _ & Hcur & _ & Hupd' & Htag' & _).
  by rewrite Htag in *.
Qed.

Lemma null_markers_keep_seeding_witness :
  exists info w',
    check env_null_null_a
      (checks env_null_null_a 2 (new_VersionChecker env_null_null_a (manual 3) host0).2).2
    = (Returned info, w') /\
    newVersion info = Some "A"%string /\
    updateAvailable info = false /\
    versionTag (this w') = newVersion info.
Proof.
  assert (Hsample : exists info w',
            check env_null_null_a
              (checks env_null_null_a 2
                 (new_VersionChecker env_null_null_a (manual 3) host0).2).2
            = (Returned info, w') /\
            newVersion info = Some "A"%string)
    by (vm_compute; eexists _, _; split; reflexivity).
  destruct Hsample as (info & w' & Hrun & Hnew).
  assert (Hnulls : forall i,
            Returned i ∈ (checks env_null_null_a 2
                            (new_VersionChecker env_null_null_a (manual 3) host0).2).1 ->
            newVersion i = None).
  { intros i Hin. apply list_elem_of_In in Hin. vm_compute in Hin.
    destruct Hin as [Hin|[Hin|[]]]; inversion Hin; reflexivity. }
  destruct (null_markers_keep_seeding env_null_null_a 2
              (new_VersionChecker env_null_null_a (manual 3) host0).2)
    as (_ & _ & Hnext).
  - vm_compute; reflexivity.
  - exact Hnulls.
  - destruct (Hnext info w' Hrun) as (Hupd & _ & Htag).
    exists info, w'. split; [exact Hrun|]. split; [exact Hnew|].
    split; [exact Hupd|exact Htag].
Defined.

(** * Further properties of the checker *)

(** ** Observations of the trace *)

Lemma since_app {A} (f : list Effect -> list A) w w' l :
  f (trace (host w')) = f (trace (host w)) ++ l -> since f w w' = l.
Proof. intros H. unfold since. rewrite H. apply drop_app_length. Qed.

Lemma invocations_app t1 t2 : invocations (t1 ++ t2) = invocations t1 ++ invocations t2.
Proof. apply omap_app. Qed.

Lemma console_errors_app t1 t2 :
  console_errors (t1 ++ t2) = console_errors t1 ++ console_errors t2.
Proof. apply omap_app. Qed.

Lemma host_calls_app t1 t2 : host_calls (t1 ++ t2) = host_calls t1 ++ host_calls t2.
Proof. apply omap_app. Qed.

Lemma invocations_dispatch callbacks e :
  invocations (dispatch callbacks e) = map cb_id callbacks.
Proof.
  induction callbacks as [|cb l IH]; [done|].
  unfold dispatch in *. cbn [flat_map map].
  change (invocations ((Invoked (cb_id cb) e ::
            match cb_run cb e with
            | Some v => [ConsoleError "Event listener error:" v]
            | None => []
            end) ++ flat_map (fun cb0 =>
              Invoked (cb_id cb0) e ::
              match cb_run cb0 e with
              | Some v => [ConsoleError "Event listener error:" v]
              | None => []
              end) l) = cb_id cb :: map cb_id l).
  rewrite invocations_app, IH. by destruct (cb_run cb e).
Qed.

Lemma console_errors_dispatch callbacks e :
  console_errors (dispatch callbacks e) = omap (fun cb => cb_run cb e) callbacks.
Proof.
  induction callbacks as [|cb l IH]; [done|].
  unfold dispatch in *. cbn [flat_map omap].
  change (console_errors ((Invoked (cb_id cb) e ::
            match cb_run cb e with
            | Some v => [ConsoleError "Event listener error:" v]
            | None => []
            end) ++ flat_map (fun cb0 =>
              Invoked (cb_id cb0) e ::
              match cb_run cb0 e with
              | Some v => [ConsoleError "Event listener error:" v]
              | None => []
              end) l)
          = match cb_run cb e with
            | Some v => v :: omap (fun cb0 => cb_run cb0 e) l
            | None => omap (fun cb0 => cb_run cb0 e) l
            end).
  rewrite console_errors_app, IH. by destruct (cb_run cb e).
Qed.

Lemma host_calls_dispatch callbacks e : host_calls (dispatch callbacks e) = [].
Proof.
  induction callbacks as [|cb l IH]; [done|].
  unfold dispatch in *. simpl. destruct (cb_run cb e); simpl; exact IH.
Qed.

Lemma host_calls_emit env event p w :
  host_calls (trace (host (emit_world env event p w))) = host_calls (trace (host w)).
Proof.
  simpl. rewrite host_calls_app. unfold host_calls at 2. simpl.
  fold (host_calls (dispatch (listeners_of (this w) event) (event_data env event p w))).
  by rewrite host_calls_dispatch, app_nil_r.
Qed.

(** ** Dispatch *)

Lemma emit_invocations env event p w :
  since invocations w (emit env event p w).2
  = map cb_id (listeners_of (this w) event).
Proof.
  rewrite emit_eq. cbn [snd]. apply since_app. cbn [emit_world host trace].
  rewrite invocations_app. f_equal.
  change (invocations (dispatch (listeners_of (this w) event)
                         (event_data env event p w))
          = map cb_id (listeners_of (this w) event)).
  apply invocations_dispatch.
Qed.

(** X1.  An emission of an event kind invokes the callbacks registered for
    that kind, each once and in the order of registration, and no other
    callback; it logs with [console.error] exactly what these callbacks
    throw, in the same order, and it makes no call to the host. *)
Theorem emit_invokes_registered_in_order env event p w :
  (emit env event p w).1 = Returned tt /\
  since events w (emit env event p w).2 = [(event, p)] /\
  since invocations w (emit env event p w).2
  = map cb_id (listeners_of (this w) event) /\
  since console_errors w (emit env event p w).2
  = omap (fun cb => cb_run cb (event_data env event p w)) (listeners_of (this w) event) /\
  since host_calls w (emit env event p w).2 = [].
Proof.
  split; [by rewrite emit_eq|]. split; [|split; [|split]].
  - rewrite emit_eq. apply since_app, events_emit.
  - apply emit_invocations.
  - rewrite emit_eq. apply since_app. cbn [snd emit_world host trace].
    rewrite console_errors_app. f_equal.
    change (console_errors (dispatch (listeners_of (this w) event)
                              (event_data env event p w))
            = omap (fun cb => cb_run cb (event_data env event p w))
                   (listeners_of (this w) event)).
    apply console_errors_dispatch.
  - rewrite emit_eq. apply since_app. cbn [snd].
    rewrite host_calls_emit. by rewrite app_nil_r.
Qed.

(** ** Registration *)

Lemma existsb_registered callback s :
  existsb (fun c => Nat.eqb (cb_id c) (cb_id callback)) s = true
  <-> cb_id callback ∈ map cb_id s.
Proof.
  rewrite existsb_exists, list_elem_of_In, in_map_iff. split.
  - intros (c & Hin & Heq). apply Nat.eqb_eq in Heq. by exists c.
  - intros (c & Heq & Hin). exists c. split; [done|]. by apply Nat.eqb_eq.
Qed.

Lemma set_add_registered callback s :
  cb_id callback ∈ map cb_id s -> set_add callback s = s.
Proof. intros H. unfold set_add. apply existsb_registered in H. by rewrite H. Qed.

Lemma set_add_new callback s :
  cb_id callback ∉ map cb_id s -> set_add callback s = s ++ [callback].
Proof.
  intros H. unfold set_add.
  destruct (existsb _ s) eqn:E; [|done].
  by apply existsb_registered in E.
Qed.

Lemma set_add_elem callback s : cb_id callback ∈ map cb_id (set_add callback s).
Proof.
  destruct (decide (cb_id callback ∈ map cb_id s)) as [Hin|Hout].
  - by rewrite set_add_registered.
  - rewrite set_add_new by done. rewrite map_app. apply elem_of_app. right.
    apply list_elem_of_here.
Qed.

Lemma set_delete_ids callback s :
  map cb_id (set_delete callback s)
  = List.filter (fun i => negb (Nat.eqb i (cb_id callback))) (map cb_id s).
Proof.
  induction s as [|c s IH]; [done|].
  unfold set_delete in *. cbn [List.filter map].
  destruct (negb (Nat.eqb (cb_id c) (cb_id callback))); cbn [map]; by rewrite IH.
Qed.

Lemma set_delete_not_elem callback s : cb_id callback ∉ map cb_id (set_delete callback s).
Proof.
  rewrite set_delete_ids, list_elem_of_In, filter_In. intros [_ H].
  by rewrite Nat.eqb_refl in H.
Qed.

Lemma set_delete_absent callback s :
  cb_id callback ∉ map cb_id s -> set_delete callback s = s.
Proof.
  induction s as [|c s IH]; [done|]. intros Hout.
  unfold set_delete in *. cbn [List.filter].
  destruct (Nat.eqb_spec (cb_id c) (cb_id callback)) as [Heq|Hne]; cbn [negb].
  - exfalso. apply Hout. cbn [map]. rewrite Heq. apply list_elem_of_here.
  - f_equal. apply IH. intros Hin. apply Hout. cbn [map].
    by apply list_elem_of_further.
Qed.

Lemma listeners_of_insert c event event' s :
  default [] (<[event := s]> (eventListeners c) !! event')
  = if decide (event = event') then s else listeners_of c event'.
Proof.
  unfold listeners_of. rewrite lookup_insert. by case_decide.
Qed.

Lemma on_world event callback w :
  on event callback w
  = (Returned tt,
     {| this := set_eventListeners
                  (<[event := set_add callback (listeners_of (this w) event)]>
                     (eventListeners (this w)))
                  (this w);
        host := host w |}).
Proof.
  unfold on, listeners_of. step_gets.
  destruct (eventListeners (this w) !! event) as [s|] eqn:E; cbn [default].
  - eapply bind_step; [reflexivity|]. unfold modify_this. cbn [this host].
    by rewrite E.
  - step_with modify_this_eq. unfold modify_this. cbn [this host set_eventListeners eventListeners].
    rewrite lookup_insert_eq. cbn [set_eventListeners eventListeners options versionTag timer retryCount].
    by rewrite insert_insert_eq.
Qed.

Lemma on_listeners event callback w event' :
  listeners_of (this (on event callback w).2) event'
  = if decide (event = event')
    then set_add callback (listeners_of (this w) event)
    else listeners_of (this w) event'.
Proof.
  rewrite on_world. cbn [snd this]. unfold listeners_of at 1.
  cbn [eventListeners set_eventListeners]. rewrite lookup_insert.
  by case_decide.
Qed.

(** X2.  [on] adds the callback at the end of the set of its event kind
    when it is not in it and changes nothing when it is, so that
    registering twice is registering once; the sets of the other kinds and
    the rest of the checker are untouched. *)
Theorem on_registers_once event callback w :
  (on event callback w).1 = Returned tt /\
  host (on event callback w).2 = host w /\
  listeners_of (this (on event callback w).2) event
  = (if decide (registered callback (this w) event)
     then listeners_of (this w) event
     else listeners_of (this w) event ++ [callback]) /\
  registered callback (this (on event callback w).2) event /\
  (forall event', event' <> event ->
     listeners_of (this (on event callback w).2) event'
     = listeners_of (this w) event') /\
  (on event callback (on event callback w).2).2 = (on event callback w).2.
Proof.
  rewrite !on_world. cbn [fst snd this host].
  assert (Hset : listeners_of
                   (set_eventListeners
                      (<[event := set_add callback (listeners_of (this w) event)]>
                         (eventListeners (this w))) (this w)) event
                 = set_add callback (listeners_of (this w) event)).
  { unfold listeners_of at 1. cbn [eventListeners set_eventListeners].
    by rewrite lookup_insert_eq. }
  split; [done|]. split; [done|]. split; [|split; [|split]].
  - rewrite Hset. unfold registered. case_decide.
    + by apply set_add_registered.
    + by apply set_add_new.
  - unfold registered. rewrite Hset. apply set_add_elem.
  - intros event' Hne. unfold listeners_of at 1.
    cbn [eventListeners set_eventListeners]. by rewrite lookup_insert_ne.
  - f_equal. rewrite Hset.
    rewrite (set_add_registered callback (set_add callback _)) by apply set_add_elem.
    unfold set_eventListeners. cbn. by rewrite insert_insert_eq.
Qed.

Lemma off_world event callback w :
  off event callback w
  = (Returned tt,
     {| this := match eventListeners (this w) !! event with
                | Some s =>
                    set_eventListeners
                      (<[event := set_delete callback s]> (eventListeners (this w)))
                      (this w)
                | None => this w
                end;
        host := host w |}).
Proof. reflexivity. Qed.

Lemma off_listeners event callback w event' :
  listeners_of (this (off event callback w).2) event'
  = if decide (event = event')
    then set_delete callback (listeners_of (this w) event)
    else listeners_of (this w) event'.
Proof.
  rewrite off_world. cbn [snd this]. unfold listeners_of.
  destruct (eventListeners (this w) !! event) as [s|] eqn:E.
  - cbn [eventListeners set_eventListeners default]. rewrite lookup_insert.
    by case_decide.
  - case_decide; [|done]. subst. by rewrite E.
Qed.

(** X3.  [off] takes the callback out of the set of its event kind and
    keeps the other callbacks of the set in their order; the next emission
    of that kind does not invoke it.  The sets of the other kinds are
    untouched, and taking out a callback that is not registered (or from a
    kind without registrations) leaves the checker exactly as it was. *)
Theorem off_unregisters event callback w :
  (off event callback w).1 = Returned tt /\
  host (off event callback w).2 = host w /\
  listeners_of (this (off event callback w).2) event
  = List.filter (fun c => negb (Nat.eqb (cb_id c) (cb_id callback)))
                (listeners_of (this w) event) /\
  ~ registered callback (this (off event callback w).2) event /\
  (forall event', event' <> event ->
     listeners_of (this (off event callback w).2) event'
     = listeners_of (this w) event') /\
  (~ registered callback (this w) event -> (off event callback w).2 = w) /\
  (forall env p,
     cb_id callback
     ∉ since invocations (off event callback w).2
         (emit env event p (off event callback w).2).2).
Proof.
  assert (Hsame : listeners_of (this (off event callback w).2) event
                  = set_delete callback (listeners_of (this w) event)).
  { rewrite off_listeners. by case_decide. }
  assert (Hout : ~ registered callback (this (off event callback w).2) event).
  { unfold registered. rewrite Hsame. apply set_delete_not_elem. }
  split; [done|]. split; [done|]. split; [exact Hsame|]. split; [exact Hout|].
  split; [|split].
  - intros event' Hne. rewrite off_listeners. by case_decide.
  - intros Hnot. rewrite off_world. cbn [snd].
    unfold registered, listeners_of in Hnot.
    destruct w as [c h]. cbn [this host] in *. f_equal.
    destruct (eventListeners c !! event) as [s|] eqn:E; [|done].
    cbn [default] in Hnot. rewrite (set_delete_absent callback s Hnot).
    rewrite insert_id by done. by destruct c.
  - intros env p.
    rewrite emit_invocations. exact Hout.
Qed.

(** X4.  Registering a callback that was not registered and then taking it
    out leaves every set of callbacks as it was, so that every emission
    invokes the same callbacks as before. *)
Theorem off_after_on_restores event callback w :
  ~ registered callback (this w) event ->
  forall event',
    listeners_of (this (off event callback (on event callback w).2).2) event'
    = listeners_of (this w) event'.
Proof.
  intros Hnew event'.
  rewrite off_listeners, !on_listeners.
  destruct (decide (event = event')) as [<-|Hne]; [|done].
  case_decide; [|done]. rewrite set_add_new by exact Hnew.
  unfold set_delete. rewrite List.filter_app. cbn [List.filter].
  rewrite Nat.eqb_refl. cbn [negb]. rewrite app_nil_r.
  by apply set_delete_absent.
Qed.

Lemma off_after_on_restores_witness :
  listeners_of
    (this (off EvError throwing_listener
             (on EvError throwing_listener
                (on EvError quiet_listener
                   (new_VersionChecker env_down (manual 0) host0).2).2).2).2) EvError
  = [quiet_listener].
Proof.
  rewrite (off_after_on_restores EvError throwing_listener
             (on EvError quiet_listener
                (new_VersionChecker env_down (manual 0) host0).2).2).
  - vm_compute; reflexivity.
  - unfold registered. intros Hin. apply list_elem_of_In in Hin.
    vm_compute in Hin. destruct Hin as [Hin|[]]. discriminate Hin.
Defined.

(** ** [start] and [stop] on the host *)

Lemma start_idle_world env w :
  timer (this w) = None -> start env w = (Returned tt, started_world env w).
Proof.
  intros Ht. unfold start. step_gets. rewrite Ht.
  step_with emit_eq. step_with check_begin_eq. step_gets.
  eapply bind_step; [reflexivity|]. reflexivity.
Qed.

Lemma stop_armed_world env w handle :
  timer (this w) = Some handle -> stop env w = (Returned tt, stopped_world env handle w).
Proof.
  intros Ht. unfold stop. step_gets. rewrite Ht.
  eapply bind_step; [reflexivity|]. step_with modify_this_eq.
  apply emit_eq.
Qed.

Lemma host_calls_begun env w :
  host_calls (trace (host (begun_world env w)))
  = host_calls (trace (host w)) ++ [Fetched (versionUrl (options (this w)))].
Proof.
  unfold begun_world, fetch_call. cbn [snd host trace].
  by rewrite host_calls_app, host_calls_emit.
Qed.









(** ** What every operation keeps *)

Lemma start_this env w :
  options (this (start env w).2) = options (this w) /\
  eventListeners (this (start env w).2) = eventListeners (this w) /\
  retryCount (this (start env w).2) = retryCount (this w) /\
  versionTag (this (start env w).2) = versionTag (this w).
Proof.
  destruct (timer (this w)) as [handle|] eqn:Ht.
  - by rewrite (start_armed env w handle Ht).
  - by rewrite (start_idle_world env w Ht).
Qed.

Lemma stop_this env w :
  options (this (stop env w).2) = options (this w) /\
  eventListeners (this (stop env w).2) = eventListeners (this w) /\
  retryCount (this (stop env w).2) = retryCount (this w) /\
  versionTag (this (stop env w).2) = versionTag (this w).
Proof.
  destruct (timer (this w)) as [handle|] eqn:Ht.
  - by rewrite (stop_armed_world env w handle Ht).
  - by rewrite (stop_idle env w Ht).
Qed.

Lemma interval_fires_this env handle w :
  this (interval_fires env handle w).2 = this w.
Proof.
  unfold interval_fires, bind. simpl. case_bool_decide; [|done].
  by rewrite check_begin_eq.
Qed.

Lemma run_op_options env o w :
  options (this (run_op env o w).2) = options (this w).
Proof.
  destruct o as [| | |event cb|event cb|event p|handle|promise]; cbn [run_op].
  - apply start_this.
  - apply stop_this.
  - rewrite bind_ret_world. apply check_fuel_frame.
  - by rewrite on_world.
  - rewrite off_world. cbn. by destruct (eventListeners (this w) !! event).
  - unfold triggerEvent. by rewrite emit_eq.
  - by rewrite interval_fires_this.
  - rewrite bind_ret_world. apply check_resume_frame.
Qed.

Lemma run_ops_options env ops : forall w,
  options (this (run_ops env ops w)) = options (this w).
Proof.
  induction ops as [|o ops IH]; intros w; [done|].
  unfold run_ops in *. cbn [fold_left]. rewrite IH. apply run_op_options.
Qed.

Lemma new_VersionChecker_options env o h :
  options (this (new_VersionChecker env o h).2) = merge_options DEFAULT_OPTIONS o.
Proof.
  unfold new_VersionChecker.
  destruct (autoStart (merge_options DEFAULT_OPTIONS o)); [|done].
  by destruct (start_this env
                 {| this := fresh_checker (merge_options DEFAULT_OPTIONS o); host := h |})
    as [-> _].
Qed.

(** X7.  The options of a checker are fixed at construction: whatever is
    called afterwards, [getOptions] returns the defaults (check interval
    60000, URL "/", strategy etag, auto start, 3 retries, retry interval
    3000) with each field that was supplied to the constructor in the place
    of its default. *)
Theorem getOptions_returns_merged_options env o h ops :
  getOptions (run_ops env ops (new_VersionChecker env o h).2)
  = (Returned (merge_options DEFAULT_OPTIONS o),
     run_ops env ops (new_VersionChecker env o h).2) /\
  merge_options DEFAULT_OPTIONS None
  = {| checkInterval := 60000; versionUrl := "/"; compareStrategy := "etag";
       autoStart := true; retryTimes := 3; retryInterval := 3000 |} /\
  merge_options DEFAULT_OPTIONS only_interval
  = {| checkInterval := 1000; versionUrl := "/"; compareStrategy := "etag";
       autoStart := false; retryTimes := 3; retryInterval := 3000 |}.
Proof.
  split; [|by split].
  unfold getOptions. rewrite gets_eq.
  by rewrite run_ops_options, new_VersionChecker_options.
Qed.


(** ** The retry counter *)

Lemma bounded_same w w' :
  options (this w') = options (this w) ->
  retryCount (this w') = retryCount (this w) ->
  counter_bounded w -> counter_bounded w'.
Proof. unfold counter_bounded. by intros -> ->. Qed.

Lemma bounded_settled env response w :
  counter_bounded w -> counter_bounded (settled_world env response w).
Proof.
  apply bounded_same; unfold settled_world;
    by destruct (updateAvailable (settled_info env response w)).
Qed.

Lemma check_fuel_bounded env fuel : forall w,
  counter_bounded w -> counter_bounded (check_fuel env fuel w).2.
Proof.
  induction fuel as [|fuel IH]; intros w Hb; [done|].
  destruct (fetch_outcome_cases (fetch env (fetchCalls (host w))))
    as [(response & Hfetch & Hok)|(err & Hfail)].
  - rewrite (check_fuel_success env fuel w response Hfetch Hok). cbn [snd].
    by apply bounded_settled.
  - rewrite (check_fuel_attempt_fails env fuel w err Hfail).
    destruct (Z.ltb_spec (retryCount (this w)) (retryTimes (options (this w))))
      as [Hlt|Hge].
    + apply IH. unfold counter_bounded in *. cbn. lia.
    + unfold counter_bounded in *. cbn. lia.
Qed.

Lemma check_resume_bounded env fuel p w :
  counter_bounded w -> counter_bounded (check_resume env fuel p w).2.
Proof.
  intros Hb. destruct (fetch_outcome_cases (fetch env p))
    as [(response & Hfetch & Hok)|(err & Hfail)].
  - rewrite (check_resume_success env fuel p w response Hfetch Hok).
    by apply bounded_settled.
  - rewrite (check_resume_fails env fuel p w err Hfail).
    destruct (Z.ltb_spec (retryCount (this w)) (retryTimes (options (this w))))
      as [Hlt|Hge].
    + apply check_fuel_bounded. unfold counter_bounded in *. cbn. lia.
    + unfold counter_bounded in *. cbn. lia.
Qed.

Lemma run_op_bounded env o w :
  counter_bounded w -> counter_bounded (run_op env o w).2.
Proof.
  intros Hb. destruct o as [| | |event cb|event cb|event p|handle|promise];
    cbn [run_op].
  - revert Hb. apply bounded_same; apply start_this.
  - revert Hb. apply bounded_same; apply stop_this.
  - rewrite bind_ret_world. by apply check_fuel_bounded.
  - revert Hb. apply bounded_same; by rewrite on_world.
  - revert Hb. apply bounded_same; rewrite off_world; cbn;
      by destruct (eventListeners (this w) !! event).
  - revert Hb. apply bounded_same; unfold triggerEvent; by rewrite emit_eq.
  - revert Hb. apply bounded_same; by rewrite interval_fires_this.
  - rewrite bind_ret_world. by apply check_resume_bounded.
Qed.

(** X9.  On every reachable checker the retry counter is at least 0 and at
    most [retryTimes] (0 when [retryTimes] is negative): retries never go
    past the configured number. *)
Theorem retry_counter_within_budget env w :
  reachable env w ->
  0 <= retryCount (this w) <= Z.max 0 (retryTimes (options (this w))).
Proof.
  induction 1 as [o h Hidle|w o _ IH]; [|by apply run_op_bounded].
  unfold new_VersionChecker.
  set (w0 := {| this := fresh_checker (merge_options DEFAULT_OPTIONS o); host := h |}).
  assert (Hb0 : counter_bounded w0) by (unfold counter_bounded; cbn; lia).
  destruct (autoStart (merge_options DEFAULT_OPTIONS o)); [|exact Hb0].
  revert Hb0. apply bounded_same; apply start_this.
Qed.

Lemma retry_counter_within_budget_witness :
  0 <= retryCount
         (this (check env_fail_ok_fail
                  (new_VersionChecker env_fail_ok_fail (manual 1) host0).2).2)
  <= 1.
Proof.
  pose proof (retry_counter_within_budget env_fail_ok_fail
                (run_op env_fail_ok_fail OpCheck
                   (new_VersionChecker env_fail_ok_fail (manual 1) host0).2).2)
    as Hb.
  assert (Hsame : (run_op env_fail_ok_fail OpCheck
                     (new_VersionChecker env_fail_ok_fail (manual 1) host0).2).2
                  = (check env_fail_ok_fail
                       (new_VersionChecker env_fail_ok_fail (manual 1) host0).2).2)
    by apply bind_ret_world.
  rewrite Hsame in Hb.
  assert (Htimes : Z.max 0 (retryTimes (options (this
            (check env_fail_ok_fail
               (new_VersionChecker env_fail_ok_fail (manual 1) host0).2).2))) = 1)
    by (vm_compute; reflexivity).
  rewrite Htimes in Hb. apply Hb.
  rewrite <- Hsame. apply reachable_op, reachable_new. reflexivity.
Defined.

(** ** The sets of callbacks have no duplicate *)

Lemma distinct_same w w' :
  eventListeners (this w') = eventListeners (this w) ->
  listeners_distinct w -> listeners_distinct w'.
Proof.
  intros Heq Hd event. specialize (Hd event). unfold listeners_of in *.
  by rewrite Heq.
Qed.

Lemma set_add_distinct callback s :
  NoDup (map cb_id s) -> NoDup (map cb_id (set_add callback s)).
Proof.
  intros Hd. destruct (decide (cb_id callback ∈ map cb_id s)) as [Hin|Hout].
  - by rewrite set_add_registered.
  - rewrite set_add_new by done. rewrite map_app. apply NoDup_app.
    split; [done|]. split; [|apply NoDup_singleton].
    intros i Hi Hi'. apply list_elem_of_singleton in Hi'. by subst.
Qed.

Lemma set_delete_distinct callback s :
  NoDup (map cb_id s) -> NoDup (map cb_id (set_delete callback s)).
Proof.
  intros Hd. rewrite set_delete_ids. apply NoDup_ListNoDup.
  apply List.NoDup_filter. by apply NoDup_ListNoDup.
Qed.

Lemma run_op_distinct env o w :
  listeners_distinct w -> listeners_distinct (run_op env o w).2.
Proof.
  intros Hd. destruct o as [| | |event cb|event cb|event p|handle|promise];
    cbn [run_op].
  - revert Hd. apply distinct_same, start_this.
  - revert Hd. apply distinct_same, stop_this.
  - rewrite bind_ret_world. revert Hd. apply distinct_same, check_fuel_frame.
  - intros event'. rewrite on_listeners. case_decide.
    + apply set_add_distinct, Hd.
    + apply Hd.
  - intros event'. rewrite off_listeners. case_decide.
    + apply set_delete_distinct, Hd.
    + apply Hd.
  - revert Hd. apply distinct_same. unfold triggerEvent. by rewrite emit_eq.
  - revert Hd. apply distinct_same. by rewrite interval_fires_this.
  - rewrite bind_ret_world. revert Hd. apply distinct_same, check_resume_frame.
Qed.

Lemma reachable_distinct env w : reachable env w -> listeners_distinct w.
Proof.
  induction 1 as [o h Hidle|w o _ IH]; [|by apply run_op_distinct].
  unfold new_VersionChecker.
  set (w0 := {| this := fresh_checker (merge_options DEFAULT_OPTIONS o); host := h |}).
  assert (Hd0 : listeners_distinct w0).
  { intros event. unfold listeners_of. cbn. rewrite lookup_empty. apply NoDup_nil_2. }
  destruct (autoStart (merge_options DEFAULT_OPTIONS o)); [|exact Hd0].
  revert Hd0. apply distinct_same, start_this.
Qed.

(** X10.  On every reachable checker no callback is twice in the set of an
    event kind, however often [on] was called with it: an emission invokes
    no callback twice. *)
Theorem emission_invokes_no_callback_twice env w event p :
  reachable env w ->
  NoDup (map cb_id (listeners_of (this w) event)) /\
  NoDup (since invocations w (emit env event p w).2).
Proof.
  intros Hreach. pose proof (reachable_distinct env w Hreach event) as Hd.
  split; [exact Hd|]. by rewrite emit_invocations.
Qed.

Lemma emission_invokes_no_callback_twice_witness :
  since invocations
    (run_ops env_down
       [OpOn EvCheck quiet_listener; OpOn EvCheck quiet_listener;
        OpOn EvCheck other_listener]
       (new_VersionChecker env_down (manual 0) host0).2)
    (emit env_down EvCheck NoPayload
       (run_ops env_down
          [OpOn EvCheck quiet_listener; OpOn EvCheck quiet_listener;
           OpOn EvCheck other_listener]
          (new_VersionChecker env_down (manual 0) host0).2)).2
  = [2%nat; 3%nat].
Proof.
  assert (Hd := emission_invokes_no_callback_twice env_down
            (run_ops env_down
               [OpOn EvCheck quiet_listener; OpOn EvCheck quiet_listener;
                OpOn EvCheck other_listener]
               (new_VersionChecker env_down (manual 0) host0).2)
            EvCheck NoPayload).
  destruct Hd as [_ Hd].
  - unfold run_ops. cbn [fold_left].
    do 3 apply reachable_op. apply reachable_new. reflexivity.
  - clear Hd. vm_compute; reflexivity.
Defined.

(** ** A [check] that gives up *)

Lemma check_retries_then_exhausted env errs w err :
  (forall i e, errs !! i = Some e ->
     failure_of (fetch env (fetchCalls (host w) + i)) = Some e) ->
  retryCount (this w) + Z.of_nat (length errs) = retryTimes (options (this w)) ->
  failure_of (fetch env (fetchCalls (host w) + length errs)) = Some err ->
  check env w = (Thrown err, exhausted_world env err (retries_world env errs w)).
Proof.
  intros Hfails Hbudget Hlast. unfold check, check_budget.
  replace (S (Z.to_nat (retryTimes (options (this w)) - retryCount (this w))))
    with (length errs + 1)%nat by lia.
  rewrite check_fuel_retries by (done || lia).
  destruct (retries_world_this env errs w) as (Ho & _ & Hr & Hf & _).
  rewrite (check_fuel_attempt_fails env _ _ err) by (by rewrite Hf).
  rewrite Ho, Hr.
  destruct (Z.ltb_spec (retryCount (this w) + Z.of_nat (length errs))
              (retryTimes (options (this w)))); [lia|done].
Qed.

(** X11.  With [retryTimes] N >= 0 and the retry counter at 0, a [check]
    whose fetch fails N + 1 times in a row rejects with the error of the
    last attempt, after N + 1 fetches and N retries numbered 1 to N; every
    failure is reported by an [error] event, the stored marker is as before
    and the retry counter is back at 0. *)
Theorem check_gives_up_after_retryTimes env w N errs err :
  0 <= N ->
  retryTimes (options (this w)) = N ->
  retryCount (this w) = 0 ->
  Z.of_nat (length errs) = N ->
  (forall i e, errs !! i = Some e ->
     failure_of (fetch env (fetchCalls (host w) + i)) = Some e) ->
  failure_of (fetch env (fetchCalls (host w) + length errs)) = Some err ->
  exists w',
    check env w = (Thrown err, w') /\
    fetchCalls (host w') = S (fetchCalls (host w) + length errs) /\
    of_kind EvRetry (new_events w w')
    = imap (fun i e => RetryPayload e (Z.of_nat i + 1)) errs /\
    of_kind EvError (new_events w w') = map ErrorPayload (errs ++ [err]) /\
    of_kind EvUpdate (new_events w w') = [] /\
    versionTag (this w') = versionTag (this w) /\
    retryCount (this w') = 0.
Proof.
  intros HN Htimes Hcount Hlen Hfails Hlast.
  exists (exhausted_world env err (retries_world env errs w)).
  split; [apply check_retries_then_exhausted; (done || lia)|].
  destruct (retries_world_this env errs w) as (_ & Hv & _ & Hf & He).
  assert (Hev : new_events w (exhausted_world env err (retries_world env errs w))
                = retry_events 0 errs ++ [(EvCheck, NoPayload); (EvError, ErrorPayload err)]).
  { apply new_events_app. rewrite events_exhausted, He, Hcount.
    by rewrite <- app_assoc. }
  rewrite Hev, !of_kind_app, of_kind_retry_events_retry, of_kind_retry_events_error,
    of_kind_retry_events_update, !of_kind_cons.
  repeat case_decide; try done.
  split; [cbn; by rewrite Hf|]. split.
  { cbn. rewrite app_nil_r. apply imap_ext. intros i e _. simpl. f_equal; lia. }
  split; [by rewrite map_app|]. by repeat split.
Qed.

Lemma check_gives_up_after_retryTimes_witness :
  exists w',
    check env_down (new_VersionChecker env_down (manual 2) host0).2
    = (Thrown net_error, w') /\
    fetchCalls (host w') = 3%nat /\
    retryCount (this w') = 0.
Proof.
  destruct (check_gives_up_after_retryTimes env_down
              (new_VersionChecker env_down (manual 2) host0).2 2
              [net_error; net_error] net_error)
    as (w' & Hrun & Hcalls & _ & _ & _ & _ & Hcount).
  - lia.
  - vm_compute; reflexivity.
  - vm_compute; reflexivity.
  - vm_compute; reflexivity.
  - intros [|[|i]] e Hi; simpl in Hi; inversion Hi; vm_compute; reflexivity.
  - vm_compute; reflexivity.
  - exists w'. split; [exact Hrun|]. split; [|exact Hcount].
    rewrite Hcalls. vm_compute; reflexivity.
Defined.

(** ** The fetches and the waits of a [check] *)

Lemma host_calls_retry env err w :
  host_calls (trace (host (retry_world env err w)))
  = host_calls (trace (host w)) ++
    [Fetched (versionUrl (options (this w)));
     TimeoutAwaited (retryInterval (options (this w)))].
Proof.
  unfold retry_world, retrying_world. cbn [host this add_trace trace].
  rewrite host_calls_app, host_calls_emit. cbn [host].
  rewrite host_calls_emit, host_calls_begun. by rewrite <- app_assoc.
Qed.

Lemma host_calls_exhausted env err w :
  host_calls (trace (host (exhausted_world env err w)))
  = host_calls (trace (host w)) ++ [Fetched (versionUrl (options (this w)))].
Proof.
  unfold exhausted_world, rejected_world. cbn [host].
  by rewrite host_calls_emit, host_calls_begun.
Qed.

Lemma host_calls_success env response w :
  host_calls (trace (host (success_world env response w)))
  = host_calls (trace (host w)) ++ [Fetched (versionUrl (options (this w)))].
Proof.
  unfold success_world, settled_world.
  destruct (updateAvailable (settled_info env response (begun_world env w))).
  - rewrite host_calls_emit. cbn [compare_world host trace]. apply host_calls_begun.
  - cbn [compare_world host trace]. apply host_calls_begun.
Qed.

Lemma host_calls_retries env errs : forall w,
  host_calls (trace (host (retries_world env errs w)))
  = host_calls (trace (host w)) ++
    concat (replicate (length errs)
              [Fetched (versionUrl (options (this w)));
               TimeoutAwaited (retryInterval (options (this w)))]).
Proof.
  induction errs as [|err errs IH]; intros w.
  - simpl. by rewrite app_nil_r.
  - unfold retries_world. cbn [fold_left].
    fold (retries_world env errs (retry_world env err w)).
    rewrite IH, host_calls_retry. cbn [length replicate concat].
    by rewrite <- app_assoc.
Qed.

Lemma of_kind_retry_events_check count errs :
  of_kind EvCheck (retry_events count errs) = replicate (length errs) NoPayload.
Proof.
  revert count. induction errs as [|err errs IH]; intros count; [done|].
  cbn [retry_events]. rewrite !of_kind_cons.
  repeat (case_decide; try done). cbn [length replicate]. by rewrite IH.
Qed.

(** A [check] that settles went through failed attempts, each retried, and a
    last attempt that succeeded or was not retried. *)
Lemma check_world env w r w' :
  check env w = (r, w') ->
  exists errs,
    (exists response,
       r = Returned (success_info env response (retries_world env errs w)) /\
       w' = success_world env response (retries_world env errs w)) \/
    (exists v,
       r = Thrown v /\
       w' = exhausted_world env v (retries_world env errs w)).
Proof.
  intros Hrun. destruct r as [info|v|].
  - destruct (check_fuel_returned _ _ _ _ _ Hrun)
      as (errs & response & _ & _ & _ & -> & ->).
    exists errs. left. by exists response.
  - destruct (check_fuel_thrown _ _ _ _ _ Hrun) as (errs & _ & _ & ->).
    exists errs. right. by exists v.
  - pose proof (check_total env w) as Htot. by rewrite Hrun in Htot.
Qed.

Lemma check_fuel_calls_bound env fuel : forall w,
  (fetchCalls (host (check_fuel env fuel w).2)
   <= fetchCalls (host w)
      + S (Z.to_nat (retryTimes (options (this w)) - retryCount (this w))))%nat.
Proof.
  induction fuel as [|fuel IH]; intros w; [simpl; lia|].
  destruct (fetch_outcome_cases (fetch env (fetchCalls (host w))))
    as [(response & Hfetch & Hok)|(err & Hfail)].
  - rewrite (check_fuel_success env fuel w response Hfetch Hok). cbn [snd].
    rewrite success_world_fetchCalls. lia.
  - rewrite (check_fuel_attempt_fails env fuel w err Hfail).
    destruct (Z.ltb_spec (retryCount (this w)) (retryTimes (options (this w))))
      as [Hlt|Hge].
    + specialize (IH (retry_world env err w)). cbn in IH. cbn. lia.
    + cbn. lia.
Qed.

(** X12.  Every [check] issues at least one fetch and at most one more than
    the retries left, [retryTimes] minus the retry counter (none left when
    that is negative); it emits one [check] event per fetch. *)
Theorem check_fetches_within_budget env w r w' :
  check env w = (r, w') ->
  (fetchCalls (host w) < fetchCalls (host w')
   <= fetchCalls (host w)
      + S (Z.to_nat (retryTimes (options (this w)) - retryCount (this w))))%nat /\
  of_kind EvCheck (new_events w w')
  = replicate (fetchCalls (host w') - fetchCalls (host w)) NoPayload.
Proof.
  intros Hrun.
  pose proof (check_fuel_calls_bound env (check_budget (this w)) w) as Hbound.
  fold (check env w) in Hbound. rewrite Hrun in Hbound. cbn [snd] in Hbound.
  destruct r as [info|v|].
  - destruct (check_returned env w info w' Hrun)
      as (errs & response & _ & _ & _ & _ & _ & _ & _ & _ & Hcalls & Hev).
    split; [lia|]. rewrite Hev, of_kind_app, of_kind_retry_events_check, of_kind_cons.
    case_decide; [|done].
    replace (fetchCalls (host w') - fetchCalls (host w))%nat
      with (length errs + 1)%nat by lia.
    rewrite replicate_add. f_equal.
    destruct (updateAvailable info); [|done].
    rewrite of_kind_cons. by case_decide.
  - destruct (check_thrown env w v w' Hrun) as (errs & _ & _ & _ & _ & Hcalls & Hev).
    split; [lia|]. rewrite Hev, of_kind_app, of_kind_retry_events_check, !of_kind_cons.
    repeat case_decide; try done.
    replace (fetchCalls (host w') - fetchCalls (host w))%nat
      with (length errs + 1)%nat by lia.
    by rewrite replicate_add.
  - pose proof (check_total env w) as Htot. by rewrite Hrun in Htot.
Qed.

Lemma check_fetches_within_budget_witness :
  exists r w',
    check env_down (new_VersionChecker env_down (manual 2) host0).2 = (r, w') /\
    (0 < fetchCalls (host w') <= 3)%nat.
Proof.
  assert (Hsample : exists r w',
            check env_down (new_VersionChecker env_down (manual 2) host0).2 = (r, w'))
    by (vm_compute; eexists _, _; reflexivity).
  destruct Hsample as (r & w' & Hrun).
  destruct (check_fetches_within_budget env_down
              (new_VersionChecker env_down (manual 2) host0).2 r w' Hrun)
    as [Hcalls _].
  exists r, w'. split; [exact Hrun|].
  assert (Hbudget : (fetchCalls (host (new_VersionChecker env_down (manual 2) host0).2)
            + S (Z.to_nat
                   (retryTimes (options (this (new_VersionChecker env_down (manual 2) host0).2))
                    - retryCount (this (new_VersionChecker env_down (manual 2) host0).2))))%nat
          = 3%nat) by (vm_compute; reflexivity).
  assert (Hzero : fetchCalls (host (new_VersionChecker env_down (manual 2) host0).2) = 0%nat)
    by (vm_compute; reflexivity).
  rewrite Hbudget, Hzero in Hcalls. exact Hcalls.
Defined.

(** X13.  The calls a [check] makes to the host are fetches of [versionUrl]
    and nothing else but the wait of [retryInterval] ms that follows each
    fetch but the last: it never fetches another URL, never retries without
    waiting, and sets or clears no interval timer. *)
Theorem check_fetches_versionUrl_and_waits env w r w' :
  check env w = (r, w') ->
  since host_calls w w'
  = retry_calls (versionUrl (options (this w))) (retryInterval (options (this w)))
      (fetchCalls (host w') - S (fetchCalls (host w))).
Proof.
  intros Hrun. apply since_app. unfold retry_calls.
  destruct (check_world env w r w' Hrun) as (errs & Hcase).
  destruct (retries_world_this env errs w) as (Ho & _ & _ & Hf & _).
  destruct Hcase as [(response & _ & ->)|(v & _ & ->)].
  - rewrite host_calls_success, host_calls_retries, success_world_fetchCalls, Ho, Hf.
    replace (S (fetchCalls (host w) + length errs) - S (fetchCalls (host w)))%nat
      with (length errs) by lia.
    by rewrite <- app_assoc.
  - rewrite host_calls_exhausted, host_calls_retries, Ho. cbn [exhausted_world
      rejected_world emit_world begun_world fetch_call snd host fetchCalls].
    rewrite Hf.
    replace (S (fetchCalls (host w) + length errs) - S (fetchCalls (host w)))%nat
      with (length errs) by lia.
    by rewrite <- app_assoc.
Qed.

Lemma check_fetches_versionUrl_and_waits_witness :
  exists r w',
    check env_two_failures (new_VersionChecker env_two_failures (manual 2) host0).2
    = (r, w') /\
    since host_calls (new_VersionChecker env_two_failures (manual 2) host0).2 w'
    = [Fetched "/version"; TimeoutAwaited 3000; Fetched "/version";
       TimeoutAwaited 3000; Fetched "/version"].
Proof.
  assert (Hsample : exists r w',
            check env_two_failures
              (new_VersionChecker env_two_failures (manual 2) host0).2 = (r, w') /\
            fetchCalls (host w') = 3%nat)
    by (vm_compute; eexists _, _; split; reflexivity).
  destruct Hsample as (r & w' & Hrun & Hcalls).
  exists r, w'. split; [exact Hrun|].
  rewrite (check_fetches_versionUrl_and_waits env_two_failures
             (new_VersionChecker env_two_failures (manual 2) host0).2 r w' Hrun).
  rewrite Hcalls. vm_compute; reflexivity.
Defined.

(** X14.  A [check], however it ends, leaves the options, the timer, the
    sets of callbacks and the interval timers of the host as they were. *)
Theorem check_keeps_configuration env w :
  options (this (check env w).2) = options (this w) /\
  timer (this (check env w).2) = timer (this w) /\
  eventListeners (this (check env w).2) = eventListeners (this w) /\
  intervals (host (check env w).2) = intervals (host w) /\
  nextTimer (host (check env w).2) = nextTimer (host w).
Proof.
  destruct (check_fuel_frame env (check_budget (this w)) w)
    as (Ho & Ht & Hl & Hi & Hn & _).
  by repeat split.
Qed.

(** X15.  A [check] that returns emits an [update] event exactly when its
    result says [updateAvailable], and the event carries the result; that
    is the case exactly when the stored marker was a string and the
    extracted marker is another string.  In particular a check that
    extracts the stored marker again signals nothing. *)
Theorem update_event_iff_marker_changed env w info w' :
  check env w = (Returned info, w') ->
  of_kind EvUpdate (new_events w w')
  = (if updateAvailable info then [InfoPayload info] else []) /\
  (updateAvailable info = true <->
   exists a b, versionTag (this w) = Some a /\ newVersion info = Some b /\ b <> a) /\
  (newVersion info = versionTag (this w) -> updateAvailable info = false).
Proof.
  intros Hrun.
  destruct (check_returned env w info w' Hrun)
    as (errs & response & _ & _ & _ & _ & _ & Hupd & _ & _ & _ & Hev).
  split; [|split].
  - rewrite Hev, of_kind_app, of_kind_retry_events_update, of_kind_cons.
    case_decide; [done|]. destruct (updateAvailable info); [|done].
    rewrite of_kind_cons. by case_decide.
  - rewrite Hupd. unfold is_update.
    destruct (versionTag (this w)) as [a|]; [|split; [done|by intros (? & ? & ? & _)]].
    destruct (newVersion info) as [b|]; [|split; [done|by intros (? & ? & _ & ? & _)]].
    destruct (String.eqb_spec b a) as [->|Hne]; cbn.
    + split; [done|]. intros (a' & b' & Ha & Hb & Hne). congruence.
    + split; [|done]. intros _. by exists a, b.
  - intros Hsame. rewrite Hupd, Hsame. unfold is_update.
    destruct (versionTag (this w)) as [a|]; [|done]. by rewrite String.eqb_refl.
Qed.

Lemma update_event_iff_marker_changed_witness :
  exists info w',
    check env_a_b
      (check env_a_b (check env_a_b (new_VersionChecker env_a_b (manual 3) host0).2).2).2
    = (Returned info, w') /\
    newVersion info = Some "B"%string /\
    of_kind EvUpdate
      (new_events
         (check env_a_b (check env_a_b (new_VersionChecker env_a_b (manual 3) host0).2).2).2
         w')
    = [].
Proof.
  assert (Hsample : exists info w',
            check env_a_b
              (check env_a_b
                 (check env_a_b (new_VersionChecker env_a_b (manual 3) host0).2).2).2
            = (Returned info, w') /\
            newVersion info = Some "B"%string /\
            updateAvailable info = false)
    by (vm_compute; eexists _, _; repeat split; reflexivity).
  destruct Hsample as (info & w' & Hrun & Hnew & Hupd).
  destruct (update_event_iff_marker_changed env_a_b _ info w' Hrun) as (Hev & _).
  exists info, w'. split; [exact Hrun|]. split; [exact Hnew|].
  rewrite Hev, Hupd. reflexivity.
Defined.

(** X16.  A [check] that rejects, whatever the retry counter was before,
    leaves it at 0, so that the next check has all its retries; it leaves
    the stored marker as it was, emits no [update] event, and the last
    event it emits is the [error] event of the value it rejects with. *)
Theorem rejected_check_resets_counter env w v w' :
  check env w = (Thrown v, w') ->
  retryCount (this w') = 0 /\
  versionTag (this w') = versionTag (this w) /\
  of_kind EvUpdate (new_events w w') = [] /\
  last (new_events w w') = Some (EvError, ErrorPayload v).
Proof.
  intros Hrun.
  destruct (check_thrown env w v w' Hrun) as (errs & _ & _ & Htag & Hcount & _ & Hev).
  split; [done|]. split; [done|]. rewrite Hev. split.
  - rewrite of_kind_app, of_kind_retry_events_update, !of_kind_cons.
    by repeat case_decide.
  - rewrite last_app. done.
Qed.

Lemma rejected_check_resets_counter_witness :
  exists w',
    check env_fail_ok_fail
      (check env_fail_ok_fail
         (new_VersionChecker env_fail_ok_fail (manual 1) host0).2).2
    = (Thrown net_error, w') /\
    retryCount
      (this (check env_fail_ok_fail
               (new_VersionChecker env_fail_ok_fail (manual 1) host0).2).2) = 1 /\
    retryCount (this w') = 0.
Proof.
  assert (Hsample : exists w',
            check env_fail_ok_fail
              (check env_fail_ok_fail
                 (new_VersionChecker env_fail_ok_fail (manual 1) host0).2).2
            = (Thrown net_error, w'))
    by (vm_compute; eexists; reflexivity).
  destruct Hsample as (w' & Hrun).
  destruct (rejected_check_resets_counter env_fail_ok_fail _ net_error w' Hrun)
    as (Hcount & _).
  exists w'. split; [exact Hrun|]. split; [vm_compute; reflexivity|exact Hcount].
Defined.

(** X17.  A [check] that returns does not reset the retry counter: it
    leaves it at its value before the call plus the number of retries the
    call made, one per fetch but the last. *)
Theorem returned_check_keeps_retries_counted env w info w' :
  check env w = (Returned info, w') ->
  retryCount (this w')
  = retryCount (this w)
    + Z.of_nat (fetchCalls (host w') - S (fetchCalls (host w))) /\
  length (of_kind EvRetry (new_events w w'))
  = (fetchCalls (host w') - S (fetchCalls (host w)))%nat.
Proof.
  intros Hrun.
  destruct (check_returned env w info w' Hrun)
    as (errs & response & _ & _ & _ & _ & _ & _ & _ & Hcount & Hcalls & Hev).
  replace (fetchCalls (host w') - S (fetchCalls (host w)))%nat
    with (length errs) by lia.
  split; [done|].
  rewrite Hev, of_kind_app, of_kind_retry_events_retry, of_kind_cons.
  case_decide; [done|]. rewrite length_app, length_imap.
  destruct (updateAvailable info); [|simpl; lia].
  rewrite of_kind_cons. case_decide; [done|]. simpl. lia.
Qed.

Lemma returned_check_keeps_retries_counted_witness :
  exists info w',
    check env_two_failures (new_VersionChecker env_two_failures (manual 2) host0).2
    = (Returned info, w') /\
    retryCount (this w') = 2.
Proof.
  assert (Hsample : exists info w',
            check env_two_failures
              (new_VersionChecker env_two_failures (manual 2) host0).2
            = (Returned info, w') /\
            fetchCalls (host w') = 3%nat)
    by (vm_compute; eexists _, _; split; reflexivity).
  destruct Hsample as (info & w' & Hrun & Hcalls).
  destruct (returned_check_keeps_retries_counted env_two_failures _ info w' Hrun)
    as [Hcount _].
  exists info, w'. split; [exact Hrun|].
  rewrite Hcount, Hcalls. vm_compute; reflexivity.
Defined.
